(** * ekeric13/cron: the Job scheduler of pkg/cron/cron.go

    A shallow embedding of [pkg/cron/cron.go].  A [*Job] is an index into a
    heap of Job structs; every method is a function in a small state and
    panic monad over the [World] (the heap, the cancellation tokens, the
    clock, the goroutines launched by [Start], and the log of callback
    dispatches).  Each critical section of the source ([Lock]..[Unlock],
    [RLock]..[RUnlock]) is one atomic action: the [sync.RWMutex] excludes
    writers from each other and from the read section of the loop.  Reads the
    source performs outside the lock (line 134, lines 148 and 150) are actions
    or parts of actions of their own, placed where the source places them. *)

From Stdlib Require Import ZArith Lia Bool Ascii String.
From stdpp Require Import base list strings.

Local Open Scope Z_scope.
Set Warnings "-register-all".

(** ** Go's [context] package, as far as the Job uses it *)

Module context.

(** A cancellation token stands for one cancelCtx node.  [Internal] tokens
    are allocated by the calls of [context.WithCancel] made inside the
    package ([Schedule], [WithContext]); [External] tokens belong to
    contexts the callers derive on their own. *)
Inductive Token := Internal (n : nat) | External (n : nat).

#[global] Instance Token_eq_dec : EqDecision Token.
Proof. solve_decision. Defined.

(** A context value is the chain of its derivations. *)
Inductive t :=
| Background
| WithCancel_ (parent : t) (tok : Token)
| WithDeadline_ (parent : t) (tok : Token) (deadline : Z).

#[global] Instance t_eq_dec : EqDecision t.
Proof. solve_decision. Defined.

(** A [CancelFunc] cancels the token it was returned with. *)
Definition CancelFunc := Token.

(** [ctx.Done()] is closed once the context's own cancel function was
    called, its deadline passed, or the parent's Done channel is closed. *)
Fixpoint Done (cancelled : list Token) (now : Z) (c : t) : bool :=
  match c with
  | Background => false
  | WithCancel_ p tok => bool_decide (tok ∈ cancelled) || Done cancelled now p
  | WithDeadline_ p tok d =>
      bool_decide (tok ∈ cancelled) || (d <=? now) || Done cancelled now p
  end.

(** The contexts that exist when the next internal token is [n]. *)
Fixpoint allocated (n : nat) (c : t) : bool :=
  match c with
  | Background => true
  | WithCancel_ p (Internal k) | WithDeadline_ p (Internal k) _ =>
      (k <? n)%nat && allocated n p
  | WithCancel_ p (External _) | WithDeadline_ p (External _) _ =>
      allocated n p
  end.

End context.

(** ** Go's [time] package, as far as the Job uses it *)

Module time.

(** [*time.Location]; nil locations are outside the model. *)
Inductive Location :=
| UTC
| Local
| FixedZone (name : string) (offset : Z)
| LoadLocation (name : string).

(** [loc.String()], the name of the location. *)
Definition String (loc : Location) : string :=
  match loc with
  | UTC => "UTC"
  | Local => "Local"
  | FixedZone name _ => name
  | LoadLocation name => name
  end.

(** An instant in nanoseconds together with the location it is shown in. *)
Record Time := mkTime { instant : Z; location : Location }.

Definition In (t : Time) (loc : Location) : Time :=
  {| instant := instant t; location := loc |}.

(** [t.Sub(u)], a Duration in nanoseconds (saturation is not modelled). *)
Definition Sub (t u : Time) : Z := instant t - instant u.

(** A one-shot timer: [C] receives once the clock reaches [when]. *)
Record Timer := mkTimer { when : Z; active : bool }.

Definition NewTimer (now : Z) (d : Z) : Timer :=
  {| when := now + d; active := true |}.

Definition Stop (tm : Timer) : Timer :=
  {| when := when tm; active := false |}.

(** [timer.C] is ready to receive. *)
Definition expired (now : Z) (tm : Timer) : bool :=
  active tm && (when tm <=? now).

End time.

(** ** Go's [strings.Fields] *)

Module gostrings.

Definition asciiSpace (c : ascii) : bool :=
  let n := nat_of_ascii c in
  ((9 <=? n) && (n <=? 13) || (n =? 32))%nat.

(** Number of bytes of the white space character (unicode.IsSpace) that
    starts [s], 0 when [s] does not start with one. *)
Definition spaceWidth (s : string) : nat :=
  match s with
  | EmptyString => 0
  | String a r =>
      if asciiSpace a then 1
      else
        match List.map nat_of_ascii (a :: take 2 (list_ascii_of_string r)) with
        | 194%nat :: b :: _ =>
            if ((b =? 133) || (b =? 160))%nat then 2 else 0
        | 225%nat :: 154%nat :: 128%nat :: _ => 3
        | 226%nat :: 128%nat :: c :: _ =>
            if ((128 <=? c) && (c <=? 138) || (c =? 168) || (c =? 169)
                || (c =? 175))%nat then 3 else 0
        | 226%nat :: 129%nat :: 159%nat :: _ => 3
        | 227%nat :: 128%nat :: 128%nat :: _ => 3
        | _ => 0
        end%nat
  end.

(** [go skip cur s]: [skip] bytes of a white space character are still to
    be dropped, [cur] is the field being read. *)
Fixpoint go (skip : nat) (cur : string) (s : string) : list string :=
  match s with
  | EmptyString => if decide (cur = EmptyString) then [] else [cur]
  | String a r =>
      match skip with
      | S k => go k cur r
      | O =>
          match spaceWidth s with
          | O => go O (cur +:+ String a EmptyString) r
          | S k =>
              if decide (cur = EmptyString) then go k EmptyString r
              else cur :: go k EmptyString r
          end
      end
  end.

Definition Fields (s : string) : list string := go 0 EmptyString s.

End gostrings.

(** ** [encoding/json], as far as [MarshalJSON] uses it *)

Module json.

Inductive Value :=
| Null
| Bool (b : bool)
| Number (z : Z)
| String (s : string)
| Object (members : list (string * Value)).

(** One field of a Go struct: its name, its [json] tag when it has one,
    and the encoding of its value, [None] for a value of a type that
    [encoding/json] does not support. *)
Record Field := mkField {
  name : string; tag : option string; value : option Value
}.

(** A field is exported when its name starts with an upper-case letter. *)
Definition exported (f : Field) : bool :=
  match name f with
  | EmptyString => false
  | String.String a _ =>
      let n := nat_of_ascii a in ((65 <=? n) && (n <=? 90))%nat
  end.

(** A field is left out when it is unexported or tagged ["-"]. *)
Definition omitted (f : Field) : bool :=
  negb (exported f) || bool_decide (tag f = Some "-").

(** The key of a field: its tag when there is one, its name otherwise. *)
Definition key (f : Field) : string := default (name f) (tag f).

Fixpoint members (fs : list Field) : string + list (string * Value) :=
  match fs with
  | [] => inr []
  | f :: fs' =>
      if omitted f then members fs'
      else
        match value f, members fs' with
        | Some v, inr ms => inr ((key f, v) :: ms)
        | None, _ => inl ("json: unsupported type: " +:+ name f)
        | _, inl err => inl err
        end
  end.

(** [json.Marshal] of a struct given by its fields, embedded structs
    flattened in place. *)
Definition Marshal (fs : list Field) : Value + string :=
  match members fs with
  | inr ms => inl (Object ms)
  | inl err => inr err
  end.

(** The encoding of a field whose value is itself marshalled. *)
Definition nested (r : Value + string) : option Value :=
  match r with
  | inl v => Some v
  | inr _ => None
  end.


End json.

(** ** github.com/robfig/cron/v3, the external parser and schedule *)

Module _cron.

(** The ParseOption bits of parser.go. *)
Definition Second : Z := Z.shiftl 1 0.
Definition SecondOptional : Z := Z.shiftl 1 1.
Definition Minute : Z := Z.shiftl 1 2.
Definition Hour : Z := Z.shiftl 1 3.
Definition Dom : Z := Z.shiftl 1 4.
Definition Month : Z := Z.shiftl 1 5.
Definition Dow : Z := Z.shiftl 1 6.
Definition DowOptional : Z := Z.shiftl 1 7.
Definition Descriptor : Z := Z.shiftl 1 8.

Record Parser := NewParser { options : Z }.

(** The library is a parameter of the development: the type of compiled
    schedules with its [Next] method, [Parser.Parse] (an error is [inr]),
    and what [encoding/json] prints for a compiled schedule. *)
Class Lib := {
  Schedule : Type;
  Next : Schedule -> time.Time -> time.Time;
  Parse : Parser -> string -> Schedule + string;
  MarshalSchedule : Schedule -> json.Value
}.

End _cron.

(** ** The Job struct (cron.go, lines 20-30) *)

(** A callback is known by the identity of its function value. *)
Definition Callback := nat.

Module Job.
Section Fields.
Context `{L : _cron.Lib}.

(** The [mutex] field has no counterpart: it is what makes each critical
    section atomic. *)
Record t := mk {
  scheduleStr : string;
  Schedule : _cron.Schedule;
  Blocking : bool;
  Timezone : time.Location;
  Ctx : context.t;
  cancelFunc : option context.CancelFunc;
  Fn : option Callback;
  isRunning : bool
}.

Definition set_Blocking (b : bool) (j : t) : t :=
  mk (scheduleStr j) (Schedule j) b (Timezone j) (Ctx j) (cancelFunc j)
     (Fn j) (isRunning j).

Definition set_Timezone (loc : time.Location) (j : t) : t :=
  mk (scheduleStr j) (Schedule j) (Blocking j) loc (Ctx j) (cancelFunc j)
     (Fn j) (isRunning j).

Definition set_Ctx (c : context.t) (cancel : option context.CancelFunc)
    (j : t) : t :=
  mk (scheduleStr j) (Schedule j) (Blocking j) (Timezone j) c cancel
     (Fn j) (isRunning j).

Definition set_Fn (fn : option Callback) (j : t) : t :=
  mk (scheduleStr j) (Schedule j) (Blocking j) (Timezone j) (Ctx j)
     (cancelFunc j) fn (isRunning j).

Definition set_isRunning (r : bool) (j : t) : t :=
  mk (scheduleStr j) (Schedule j) (Blocking j) (Timezone j) (Ctx j)
     (cancelFunc j) (Fn j) r.

End Fields.
End Job.

(** ** Goroutines and the world *)

(** Where a goroutine launched by [Start] stands.  [done] is the channel
    read once at line 134, kept as the context it belongs to. *)
Inductive PC :=
| Launching
    (* Start, past its critical section, line 134 not yet run *)
| LoopTop (done : context.t)
    (* line 136: about to take the read lock *)
| Select (done : context.t) (timer : time.Timer) (isBlocking : bool)
    (* line 145: timer armed, read lock released *)
| InCallback (done : context.t)
    (* line 148: inside the synchronous call of j.Fn *)
| Returned (timer : time.Timer)
    (* line 154: the goroutine has ended *)
| Panicked
    (* a nil dereference or a call of a nil function value *).

Record Task := mkTask { t_job : nat; t_pc : PC }.

(** One dispatch of the callback: by which goroutine, which function value,
    with which context, and whether through [go] (line 150). *)
Record Event := mkEvent {
  ev_task : nat; ev_fn : Callback; ev_ctx : context.t; ev_go : bool
}.

Section World.
Context `{L : _cron.Lib}.

Record World := mkWorld {
  jobs : list Job.t;                  (* the heap; a *Job is an index *)
  cancelled : list context.Token;     (* cancel functions called so far *)
  next_token : nat;                   (* next cancelCtx to allocate *)
  clock : Z;                          (* time.Now(), in nanoseconds *)
  tasks : list Task;                  (* goroutines launched by Start *)
  events : list Event                 (* dispatches, latest first *)
}.

Definition set_jobs (f : list Job.t -> list Job.t) (w : World) : World :=
  mkWorld (f (jobs w)) (cancelled w) (next_token w) (clock w) (tasks w)
          (events w).

Definition set_tasks (f : list Task -> list Task) (w : World) : World :=
  mkWorld (jobs w) (cancelled w) (next_token w) (clock w) (f (tasks w))
          (events w).

Definition add_cancelled (tok : context.Token) (w : World) : World :=
  mkWorld (jobs w) (tok :: cancelled w) (next_token w) (clock w) (tasks w)
          (events w).

Definition set_clock (c : Z) (w : World) : World :=
  mkWorld (jobs w) (cancelled w) (next_token w) c (tasks w) (events w).

Definition add_event (e : Event) (w : World) : World :=
  mkWorld (jobs w) (cancelled w) (next_token w) (clock w) (tasks w)
          (e :: events w).

Definition bump_token (w : World) : World :=
  mkWorld (jobs w) (cancelled w) (S (next_token w)) (clock w) (tasks w)
          (events w).

Definition initial (now : Z) : World := mkWorld [] [] 0 now [] [].

(** Whether the Done channel of [c] is closed in [w]. *)
Definition done_closed (w : World) (c : context.t) : bool :=
  context.Done (cancelled w) (clock w) c.

(** *** The monad of the methods: state and panics *)

Inductive Result (A : Type) :=
| Ok (a : A) (w : World)
| Panic (msg : string).
Arguments Ok {A} a w.
Arguments Panic {A} msg.

Definition M (A : Type) : Type := World -> Result A.

Definition ret {A} (a : A) : M A := fun w => Ok a w.

Definition bind {A B} (m : M A) (k : A -> M B) : M B :=
  fun w => match m w with
           | Ok a w' => k a w'
           | Panic msg => Panic msg
           end.

Definition panic {A} (msg : string) : M A := fun _ => Panic msg.

Definition modify (f : World -> World) : M unit := fun w => Ok tt (f w).

End World.

Arguments Ok {L A} a w.
Arguments Panic {L A} msg.

Notation "'let*' x ':=' m 'in' k" := (bind m (fun x => k))
  (at level 10, x name, m at level 100, k at level 200).
Notation "m ';;' k" := (bind m (fun _ => k))
  (at level 100, k at level 200, right associativity).

(** ** The package: cron.go *)

Section Cron.
Context `{L : _cron.Lib}.

(** [*j]: a nil or dangling pointer panics. *)
Definition load (j : nat) : M Job.t :=
  fun w => match jobs w !! j with
           | Some job => Ok job w
           | None => Panic "invalid memory address or nil pointer dereference"
           end.

Definition store (j : nat) (job : Job.t) : M unit :=
  modify (set_jobs (fun h => <[j:=job]> h)).

(** [&Job{...}] *)
Definition alloc (job : Job.t) : M nat :=
  fun w => Ok (length (jobs w)) (set_jobs (fun h => h ++ [job]) w).

(** [context.WithCancel(parent)] *)
Definition WithCancel (parent : context.t)
    : M (context.t * context.CancelFunc) :=
  fun w => let tok := context.Internal (next_token w) in
           Ok (context.WithCancel_ parent tok, tok) (bump_token w).

Definition call (cancel : context.CancelFunc) : M unit :=
  modify (add_cancelled cancel).

(** [time.Now()] *)
Definition Now : M time.Time :=
  fun w => Ok (time.mkTime (clock w) time.Local) w.

(** *** MarshalJSON (lines 33-42) *)

(** The struct [time.Location] of Go's zoneinfo.go as [encoding/json] sees
    it: seven fields, none exported, and no marshalling method.  Only the
    name is given a value here; the others never reach the output. *)
Definition Location (loc : time.Location) : list json.Field :=
  [ json.mkField "name" None (Some (json.String (time.String loc)));
    json.mkField "zone" None (Some json.Null);
    json.mkField "tx" None (Some json.Null);
    json.mkField "extend" None (Some json.Null);
    json.mkField "cacheStart" None (Some json.Null);
    json.mkField "cacheEnd" None (Some json.Null);
    json.mkField "cacheZone" None (Some json.Null) ].

(** The fields of [Job], hence of [Alias], in the order of lines 21-29.
    A value is [None] where the field's type has no encoding (a func). *)
Definition Alias (job : Job.t) : list json.Field :=
  [ json.mkField "scheduleStr" None (Some (json.String (Job.scheduleStr job)));
    json.mkField "Schedule" (Some "schedule")
      (Some (_cron.MarshalSchedule (Job.Schedule job)));
    json.mkField "Blocking" (Some "blocking")
      (Some (json.Bool (Job.Blocking job)));
    json.mkField "Timezone" (Some "timezone")
      (json.nested (json.Marshal (Location (Job.Timezone job))));
    json.mkField "Ctx" (Some "-") (Some (json.Object []));
    json.mkField "cancelFunc" None None;
    json.mkField "Fn" (Some "-") None;
    json.mkField "isRunning" None (Some (json.Bool (Job.isRunning job)));
    json.mkField "mutex" None (Some (json.Object [])) ].

Definition MarshalJSON (j : nat) : M (json.Value + string) :=
  let* job := load j in
  ret (json.Marshal
         (json.mkField "ScheduleStr" (Some "schedule_str")
            (Some (json.String (Job.scheduleStr job)))
          :: Alias job)).

(** *** Schedule (lines 47-73) *)

Definition Schedule (scheduleStr : string) : M nat :=
  let fields := gostrings.Fields scheduleStr in
  let parser :=
    if decide (length fields = 6%nat) then
      _cron.NewParser
        (Z.lor (Z.lor (Z.lor (Z.lor (Z.lor _cron.Second _cron.Minute)
           _cron.Hour) _cron.Dom) _cron.Month) _cron.Dow)
    else
      _cron.NewParser
        (Z.lor (Z.lor (Z.lor (Z.lor _cron.Minute _cron.Hour) _cron.Dom)
           _cron.Month) _cron.Dow) in
  match _cron.Parse parser scheduleStr with
  | inr err => panic "invalid cron schedule"
  | inl schedule =>
      let* c := WithCancel context.Background in
      alloc {| Job.scheduleStr := scheduleStr;
               Job.Schedule := schedule;
               Job.Blocking := false;
               Job.Timezone := time.UTC;
               Job.Ctx := fst c;
               Job.cancelFunc := Some (snd c);
               Job.Fn := None;
               Job.isRunning := false |}
  end.

(** *** now (lines 76-78) *)

Definition now (j : nat) : M time.Time :=
  let* job := load j in
  let* t := Now in
  ret (time.In t (Job.Timezone job)).

(** *** The fluent mutators (lines 82-121) *)

Definition SetBlocking (j : nat) (blocking : bool) : M nat :=
  let* job := load j in
  store j (Job.set_Blocking blocking job) ;;
  ret j.

Definition WithContext (j : nat) (ctx : context.t) : M nat :=
  let* job := load j in
  match Job.cancelFunc job with
  | Some cancel => call cancel
  | None => ret tt
  end ;;
  let* c := WithCancel ctx in
  store j (Job.set_Ctx (fst c) (Some (snd c)) job) ;;
  ret j.

Definition SetTimezone (j : nat) (loc : time.Location) : M nat :=
  let* job := load j in
  store j (Job.set_Timezone loc job) ;;
  ret j.

Definition Execute (j : nat) (fn : option Callback) : M nat :=
  let* job := load j in
  store j (Job.set_Fn fn job) ;;
  ret j.

(** *** Start (lines 125-158) *)

Definition spawn (t : Task) : M nat :=
  fun w => Ok (length (tasks w)) (set_tasks (fun ts => ts ++ [t]) w).

Definition set_pc (i : nat) (j : nat) (pc : PC) : M unit :=
  modify (set_tasks (fun ts => <[i:=mkTask j pc]> ts)).

(** Lines 126-132, the critical section.  When the guard lets the call
    through, the rest of the call is entered as a goroutine-to-be. *)
Definition Start_guard (j : nat) : M (option nat) :=
  let* job := load j in
  if bool_decide (Job.Fn job = None) || Job.isRunning job then ret None
  else
    store j (Job.set_isRunning true job) ;;
    let* i := spawn (mkTask j Launching) in
    ret (Some i).

(** Lines 134-135: [done := j.Ctx.Done()], read outside the lock, then
    [go func() { for { ... } }()]. *)
Definition Start_launch (i : nat) (j : nat) : M unit :=
  let* job := load j in
  set_pc i j (LoopTop (Job.Ctx job)).

Definition Start (j : nat) : M unit :=
  let* launched := Start_guard j in
  match launched with
  | Some i => Start_launch i j
  | None => ret tt
  end.

(** *** Stop (lines 162-169) *)

Definition Stop (j : nat) : M unit :=
  let* job := load j in
  if Job.isRunning job then
    store j (Job.set_isRunning false job) ;;
    match Job.cancelFunc job with
    | Some cancel => call cancel
    | None => panic "invalid memory address or nil pointer dereference"
    end
  else ret tt.

End Cron.

(** ** The scheduling loop (lines 135-157) and the interleavings *)

Section Loop.
Context `{L : _cron.Lib}.

(** Lines 137-144, the read section of one iteration.  [dt] is the time
    that passes between the two calls of [j.now()]. *)
Definition iteration_head (j : nat) (dt : Z)
    : M (time.Timer * bool) :=
  let* previousRun := now j in
  let* job := load j in
  let currentRun := _cron.Next (Job.Schedule job) previousRun in
  modify (fun w => set_clock (clock w + dt) w) ;;
  let* n := now j in
  let timer := time.NewTimer (time.instant n) (time.Sub currentRun n) in
  let isBlocking := Job.Blocking job in
  ret (timer, isBlocking).

Definition task_at (w : World) (i : nat) : option (nat * PC) :=
  t ← tasks w !! i; Some (t_job t, t_pc t).

Definition goto (i j : nat) (pc : PC) (w : World) : World :=
  set_tasks (fun ts => <[i:=mkTask j pc]> ts) w.

(** Lines 136-144: from the top of the loop to the select. *)
Definition loop_arm (i : nat) (dt : Z) (w : World) : option World :=
  match task_at w i with
  | Some (j, LoopTop done) =>
      if 0 <=? dt then
        match iteration_head j dt w with
        | Ok (timer, isBlocking) w' =>
            Some (goto i j (Select done timer isBlocking) w')
        | Panic _ => Some (goto i j Panicked w)
        end
      else None
  | _ => None
  end.

(** Lines 146-151: the select receives from [timer.C]; [j.Fn] and [j.Ctx]
    are read here, outside the lock.  A select takes any one of its ready
    cases: when the timer is due and [done] is closed, this step and
    [loop_done] below can both be taken. *)
Definition loop_fire (i : nat) (w : World) : option World :=
  match task_at w i with
  | Some (j, Select done timer isBlocking) =>
      if time.expired (clock w) timer then
        match jobs w !! j with
        | Some job =>
            match Job.Fn job with
            | Some fn =>
                let e := mkEvent i fn (Job.Ctx job) (negb isBlocking) in
                Some (goto i j
                        (if isBlocking then InCallback done else LoopTop done)
                        (add_event e w))
            | None => Some (goto i j Panicked w)
            end
        | None => Some (goto i j Panicked w)
        end
      else None
  | _ => None
  end.

(** Line 148 returns: the synchronous callback is over. *)
Definition loop_return (i : nat) (w : World) : option World :=
  match task_at w i with
  | Some (j, InCallback done) => Some (goto i j (LoopTop done) w)
  | _ => None
  end.

(** Lines 152-154: the select receives from [done]. *)
Definition loop_done (i : nat) (w : World) : option World :=
  match task_at w i with
  | Some (j, Select done timer isBlocking) =>
      if done_closed w done then
        Some (goto i j (Returned (time.Stop timer)) w)
      else None
  | _ => None
  end.

(** What can happen next: a call of the API by some goroutine, the
    environment (time passing, a caller cancelling a context of its own),
    or a step of a goroutine launched by [Start]. *)
Inductive Action :=
| CallSchedule (scheduleStr : string)
| CallSetBlocking (j : nat) (blocking : bool)
| CallWithContext (j : nat) (ctx : context.t)
| CallSetTimezone (j : nat) (loc : time.Location)
| CallExecute (j : nat) (fn : option Callback)
| CallStart (j : nat)           (* a whole call, nothing in between *)
| CallStartGuard (j : nat)      (* lines 126-132 only *)
| StartLaunch (i : nat)         (* lines 134-135 of a call let through *)
| CallStop (j : nat)
| Tick (dt : Z)
| Cancel (n : nat)
| Arm (i : nat) (dt : Z)
| Fire (i : nat)
| Return_ (i : nat)
| Observe (i : nat).

Definition effect {A} (m : M A) (w : World) : option World :=
  match m w with
  | Ok _ w' => Some w'
  | Panic _ => None
  end.

(** [exec a w] is [None] when [a] cannot happen in [w] or panics. *)
Definition exec (a : Action) (w : World) : option World :=
  match a with
  | CallSchedule s => effect (Schedule s) w
  | CallSetBlocking j b => effect (SetBlocking j b) w
  | CallWithContext j c =>
      if context.allocated (next_token w) c then effect (WithContext j c) w
      else None
  | CallSetTimezone j loc => effect (SetTimezone j loc) w
  | CallExecute j fn => effect (Execute j fn) w
  | CallStart j => effect (Start j) w
  | CallStartGuard j => effect (Start_guard j) w
  | StartLaunch i =>
      match task_at w i with
      | Some (j, Launching) => effect (Start_launch i j) w
      | _ => None
      end
  | CallStop j => effect (Stop j) w
  | Tick dt => if 0 <=? dt then Some (set_clock (clock w + dt) w) else None
  | Cancel n => Some (add_cancelled (context.External n) w)
  | Arm i dt => loop_arm i dt w
  | Fire i => loop_fire i w
  | Return_ i => loop_return i w
  | Observe i => loop_done i w
  end.

Fixpoint run (acts : list Action) (w : World) : option World :=
  match acts with
  | [] => Some w
  | a :: acts' =>
      match exec a w with
      | Some w' => run acts' w'
      | None => None
      end
  end.

(** The worlds a program can be in. *)
Definition reachable (w : World) : Prop :=
  exists now acts, run acts (initial now) = Some w.

(** *** Observations *)

(** A goroutine of the loop is active from its launch to its end. *)
Definition active (pc : PC) : bool :=
  match pc with
  | Returned _ | Panicked => false
  | _ => true
  end.

Definition active_loops (w : World) (j : nat) : nat :=
  length (filter (fun t => t_job t = j /\ active (t_pc t) = true) (tasks w)).

Definition launched (w : World) (j : nat) : nat :=
  length (filter (fun t => t_job t = j) (tasks w)).

(** The dispatches made by goroutine [i]. *)
Definition dispatches (w : World) (i : nat) : list Event :=
  filter (fun e => ev_task e = i) (events w).

End Loop.

(** The goroutine an action is a step of, when it is one. *)
Definition actor (a : Action) : option nat :=
  match a with
  | StartLaunch i | Arm i _ | Fire i | Return_ i | Observe i => Some i
  | _ => None
  end.

(** ** Vocabulary of the statements *)

Module Frame.
Section Frame.
Context `{L : _cron.Lib}.

(** The fields of a Job, to say which ones an operation leaves alone. *)
Inductive Field :=
| scheduleStr | Schedule | Blocking | Timezone | Ctx | cancelFunc | Fn
| isRunning.

Definition same (f : Field) (a b : Job.t) : Prop :=
  match f with
  | scheduleStr => Job.scheduleStr a = Job.scheduleStr b
  | Schedule => Job.Schedule a = Job.Schedule b
  | Blocking => Job.Blocking a = Job.Blocking b
  | Timezone => Job.Timezone a = Job.Timezone b
  | Ctx => Job.Ctx a = Job.Ctx b
  | cancelFunc => Job.cancelFunc a = Job.cancelFunc b
  | Fn => Job.Fn a = Job.Fn b
  | isRunning => Job.isRunning a = Job.isRunning b
  end.

(** [w'] has the Jobs of [w], the one at [j] replaced by [job']. *)
Definition heap (w w' : World) (j : nat) (job' : Job.t) : Prop :=
  jobs w' !! j = Some job' /\
  length (jobs w') = length (jobs w) /\
  forall k, k <> j -> jobs w' !! k = jobs w !! k.

(** Nothing but the heap of Jobs differs between [w] and [w']. *)
Definition rest (w w' : World) : Prop :=
  cancelled w' = cancelled w /\ next_token w' = next_token w /\
  clock w' = clock w /\ tasks w' = tasks w /\ events w' = events w.

End Frame.
End Frame.

(** The cancellation handle of a Job built through the API: [Ctx] is the
    context [cancelFunc] cancels, and both exist. *)
Definition handle_ok `{L : _cron.Lib} (n : nat) (job : Job.t) : Prop :=
  exists p k,
    Job.Ctx job = context.WithCancel_ p (context.Internal k) /\
    Job.cancelFunc job = Some (context.Internal k) /\
    (k < n)%nat /\ context.allocated n p = true.

Definition pc_done (pc : PC) : option context.t :=
  match pc with
  | LoopTop d | Select d _ _ | InCallback d => Some d
  | _ => None
  end.

Record Inv `{L : _cron.Lib} (w : World) : Prop := {
  inv_jobs : forall j job, jobs w !! j = Some job ->
             handle_ok (next_token w) job;
  inv_cancelled : forall k, context.Internal k ∈ cancelled w ->
                  (k < next_token w)%nat;
  inv_tasks : forall i t, tasks w !! i = Some t ->
              (t_job t < length (jobs w))%nat
}.

(** ** The interleavings as a relation *)

Section Step.
Context `{L : _cron.Lib}.

(** The parser [Schedule] selects for an expression (lines 48-55). *)
Definition parser_for (scheduleStr : string) : _cron.Parser :=
  if decide (length (gostrings.Fields scheduleStr) = 6%nat) then
    _cron.NewParser
      (Z.lor (Z.lor (Z.lor (Z.lor (Z.lor _cron.Second _cron.Minute)
         _cron.Hour) _cron.Dom) _cron.Month) _cron.Dow)
  else
    _cron.NewParser
      (Z.lor (Z.lor (Z.lor (Z.lor _cron.Minute _cron.Hour) _cron.Dom)
         _cron.Month) _cron.Dow).

(** The Job [Schedule] builds (lines 62-72) when the next token is [n]. *)
Definition fresh_job (scheduleStr : string) (schedule : _cron.Schedule)
    (n : nat) : Job.t :=
  {| Job.scheduleStr := scheduleStr;
     Job.Schedule := schedule;
     Job.Blocking := false;
     Job.Timezone := time.UTC;
     Job.Ctx := context.WithCancel_ context.Background (context.Internal n);
     Job.cancelFunc := Some (context.Internal n);
     Job.Fn := None;
     Job.isRunning := false |}.

(** The handle [WithContext] installs when the next token is [n]. *)
Definition rehandled (ctx : context.t) (n : nat) (job : Job.t) : Job.t :=
  Job.set_Ctx (context.WithCancel_ ctx (context.Internal n))
              (Some (context.Internal n)) job.

Definition put (j : nat) (job : Job.t) (w : World) : World :=
  set_jobs (fun h => <[j:=job]> h) w.

(** The timer an iteration arms: created at [clock w + dt] for the time
    left until the run that follows [clock w] in the Job's timezone. *)
Definition armed (job : Job.t) (dt : Z) (w : World) : time.Timer :=
  time.NewTimer (clock w + dt)
    (time.Sub
       (_cron.Next (Job.Schedule job)
          (time.mkTime (clock w) (Job.Timezone job)))
       (time.mkTime (clock w + dt) (Job.Timezone job))).

Inductive step (w : World) : Action -> World -> Prop :=
| step_Schedule s schedule :
    _cron.Parse (parser_for s) s = inl schedule ->
    step w (CallSchedule s)
      (set_jobs (fun h => h ++ [fresh_job s schedule (next_token w)])
         (bump_token w))
| step_SetBlocking j job b :
    jobs w !! j = Some job ->
    step w (CallSetBlocking j b) (put j (Job.set_Blocking b job) w)
| step_SetTimezone j job loc :
    jobs w !! j = Some job ->
    step w (CallSetTimezone j loc) (put j (Job.set_Timezone loc job) w)
| step_Execute j job fn :
    jobs w !! j = Some job ->
    step w (CallExecute j fn) (put j (Job.set_Fn fn job) w)
| step_WithContext j job ctx cancel :
    jobs w !! j = Some job ->
    Job.cancelFunc job = Some cancel ->
    context.allocated (next_token w) ctx = true ->
    step w (CallWithContext j ctx)
      (put j (rehandled ctx (next_token w) job)
         (bump_token (add_cancelled cancel w)))
| step_WithContext_nil j job ctx :
    jobs w !! j = Some job ->
    Job.cancelFunc job = None ->
    context.allocated (next_token w) ctx = true ->
    step w (CallWithContext j ctx)
      (put j (rehandled ctx (next_token w) job) (bump_token w))
| step_Start_refused j job :
    jobs w !! j = Some job ->
    Job.Fn job = None \/ Job.isRunning job = true ->
    step w (CallStart j) w
| step_Start_passed j job fn :
    jobs w !! j = Some job ->
    Job.Fn job = Some fn ->
    Job.isRunning job = false ->
    step w (CallStart j)
      (set_tasks (fun ts => ts ++ [mkTask j (LoopTop (Job.Ctx job))])
         (put j (Job.set_isRunning true job) w))
| step_Guard_refused j job :
    jobs w !! j = Some job ->
    Job.Fn job = None \/ Job.isRunning job = true ->
    step w (CallStartGuard j) w
| step_Guard_passed j job fn :
    jobs w !! j = Some job ->
    Job.Fn job = Some fn ->
    Job.isRunning job = false ->
    step w (CallStartGuard j)
      (set_tasks (fun ts => ts ++ [mkTask j Launching])
         (put j (Job.set_isRunning true job) w))
| step_Launch i j job :
    task_at w i = Some (j, Launching) ->
    jobs w !! j = Some job ->
    step w (StartLaunch i) (goto i j (LoopTop (Job.Ctx job)) w)
| step_Stop_idle j job :
    jobs w !! j = Some job ->
    Job.isRunning job = false ->
    step w (CallStop j) w
| step_Stop_running j job cancel :
    jobs w !! j = Some job ->
    Job.isRunning job = true ->
    Job.cancelFunc job = Some cancel ->
    step w (CallStop j)
      (add_cancelled cancel (put j (Job.set_isRunning false job) w))
| step_Tick dt :
    0 <= dt ->
    step w (Tick dt) (set_clock (clock w + dt) w)
| step_Cancel n :
    step w (Cancel n) (add_cancelled (context.External n) w)
| step_Arm i j done dt job :
    task_at w i = Some (j, LoopTop done) ->
    0 <= dt ->
    jobs w !! j = Some job ->
    step w (Arm i dt)
      (goto i j (Select done (armed job dt w) (Job.Blocking job))
         (set_clock (clock w + dt) w))
| step_Arm_nil i j done dt :
    task_at w i = Some (j, LoopTop done) ->
    0 <= dt ->
    jobs w !! j = None ->
    step w (Arm i dt) (goto i j Panicked w)
| step_Fire i j done timer isBlocking job fn :
    task_at w i = Some (j, Select done timer isBlocking) ->
    time.expired (clock w) timer = true ->
    jobs w !! j = Some job ->
    Job.Fn job = Some fn ->
    step w (Fire i)
      (goto i j (if isBlocking then InCallback done else LoopTop done)
         (add_event (mkEvent i fn (Job.Ctx job) (negb isBlocking)) w))
| step_Fire_nil i j done timer isBlocking :
    task_at w i = Some (j, Select done timer isBlocking) ->
    time.expired (clock w) timer = true ->
    (jobs w !! j = None \/
     exists job, jobs w !! j = Some job /\ Job.Fn job = None) ->
    step w (Fire i) (goto i j Panicked w)
| step_Return i j done :
    task_at w i = Some (j, InCallback done) ->
    step w (Return_ i) (goto i j (LoopTop done) w)
| step_Observe i j done timer isBlocking :
    task_at w i = Some (j, Select done timer isBlocking) ->
    done_closed w done = true ->
    step w (Observe i) (goto i j (Returned (time.Stop timer)) w).

End Step.

(** The Done channel a goroutine of the loop holds belongs to the handle its
    Job has now, or is closed. *)
Definition done_held `{L : _cron.Lib} (w : World) : Prop :=
  forall i t d,
    tasks w !! i = Some t -> pc_done (t_pc t) = Some d ->
    exists job, jobs w !! t_job t = Some job /\
                (d = Job.Ctx job \/ done_closed w d = true).



(** Job [j] holds the cancel function of token [tok]. *)
Definition holds `{L : _cron.Lib} (w : World) (j : nat)
    (tok : context.Token) : Prop :=
  exists job, jobs w !! j = Some job /\ Job.cancelFunc job = Some tok.

(** No two Jobs hold the same cancel function, and every token allocated
    so far is held by a Job or has been cancelled. *)
Definition private_handles `{L : _cron.Lib} (w : World) : Prop :=
  (forall j k tok, holds w j tok -> holds w k tok -> j = k) /\
  (forall n, (n < next_token w)%nat ->
             context.Internal n ∈ cancelled w \/
             exists j, holds w j (context.Internal n)).

(** ** A small instance of the library, to run the model on *)

Module Stars.

(** Schedules made of stars only: every second (six fields) or every
    minute (five fields); a schedule is its period in nanoseconds. *)
Definition all_stars (fs : list string) : bool :=
  forallb (fun f => bool_decide (f = "*")) fs.

Definition Parse (p : _cron.Parser) (spec : string) : Z + string :=
  let fs := gostrings.Fields spec in
  let n := if Z.testbit (_cron.options p) 0 then 6%nat else 5%nat in
  if bool_decide (length fs = n) && all_stars fs then
    inl (if Z.testbit (_cron.options p) 0 then 1000000000 else 60000000000)
  else inr "bad spec".

Definition Next (period : Z) (t : time.Time) : time.Time :=
  time.mkTime ((time.instant t / period + 1) * period) (time.location t).

Definition lib : _cron.Lib := {|
  _cron.Schedule := Z;
  _cron.Next := Next;
  _cron.Parse := Parse;
  _cron.MarshalSchedule := json.Number
|}.

End Stars.

(** ** Programs to run the model on *)

Module Scenario.
Section Scenario.
Local Existing Instance Stars.lib.

Definition every_second : string := "* * * * * *".
Definition second : Z := 1000000000.

(** The handle [Schedule] gives the first Job, and a context of the
    caller's own. *)
Definition first_handle : context.t :=
  context.WithCancel_ context.Background (context.Internal 0).
Definition parent : context.t :=
  context.WithCancel_ context.Background (context.External 0).

Definition after (acts : list Action) (w : World) : World :=
  default w (run acts w).

(** A Job with a callback, not started. *)
Definition build : list Action :=
  [CallSchedule every_second; CallExecute 0 (Some 1%nat)].
Definition built : World := Eval vm_compute in after build (initial 0).

Definition job_of (w : World) : Job.t :=
  default (fresh_job EmptyString 0 0) (jobs w !! 0%nat).
Definition built_job : Job.t := Eval vm_compute in job_of built.

(** The same Job moved to another timezone. *)
Definition pst : time.Location := time.FixedZone "PST" (-28800).

(** The same Job, started. *)
Definition started : World :=
  Eval vm_compute in after [CallStart 0] built.

Definition started_job : Job.t := Eval vm_compute in job_of started.

(** The first iteration armed, then the Job stopped while the goroutine
    is on its way to the select. *)
Definition stopped_waiting : World :=
  Eval vm_compute in after [Arm 0 0; CallStop 0] started.
Definition meanwhile : list Action := [CallSetBlocking 0 true; Tick 5].
Definition still_waiting : World :=
  Eval vm_compute in after meanwhile stopped_waiting.

(** A Job under a context of the caller, started; then the caller cancels
    its context and the loop ends, Stop never called. *)
Definition started_under_parent : World :=
  Eval vm_compute in after [CallWithContext 0 parent; CallStart 0] built.
Definition job_under_parent : Job.t :=
  Eval vm_compute in job_of started_under_parent.
Definition parent_cancelled : list Action :=
  [Arm 0 0; Cancel 0; Observe 0].
Definition parent_gone : World :=
  Eval vm_compute in after parent_cancelled started_under_parent.

(** The callback replaced while the goroutine waits for the timer. *)
Definition armed : World := Eval vm_compute in after [Arm 0 0] started.
Definition swap_callback : list Action :=
  [CallExecute 0 (Some 2%nat); Tick second; Fire 0].
Definition callback_swapped : World :=
  Eval vm_compute in after swap_callback armed.

(** The handle replaced while the goroutine waits; the timer fires and
    the next iteration begins. *)
Definition swap_handle : list Action :=
  [CallWithContext 0 context.Background; Tick second; Fire 0; Arm 0 0].
Definition handle_swapped : World :=
  Eval vm_compute in after swap_handle armed.
Definition handle_swapped_ended : World :=
  Eval vm_compute in after [Observe 0] handle_swapped.

(** Stop right after Start, just before a full second; the clock passes
    the second between the two calls of [j.now()] of the first iteration,
    so the timer is due when it is armed. *)
Definition stop_then_arm : list Action :=
  build ++ [CallStart 0; CallStop 0; Arm 0 20].
Definition stopped_armed : World :=
  Eval vm_compute in after stop_then_arm (initial 999999990).
Definition fired_after_stop : World :=
  Eval vm_compute in after [Fire 0] stopped_armed.

(** A blocking Job whose callback is still running when the Job is
    stopped, given a new handle and started again. *)
Definition overlap : list Action :=
  build ++
  [CallSetBlocking 0 true; CallStart 0; Arm 0 0; Tick second; Fire 0;
   CallStop 0; CallWithContext 0 context.Background; CallStart 0;
   Arm 1 0; Tick second; Fire 1].
Definition overlapped : World :=
  Eval vm_compute in after overlap (initial 0).

(** The timer of the first iteration due, then fired. *)
Definition due : World := Eval vm_compute in after [Tick second] armed.
Definition fired : World := Eval vm_compute in after [Fire 0] due.

(** A blocking Job inside its callback, and what goes on meanwhile. *)
Definition enter_callback : list Action :=
  [CallSetBlocking 0 true; CallStart 0; Arm 0 0; Tick second; Fire 0].
Definition in_callback : World :=
  Eval vm_compute in after enter_callback built.
Definition during_callback : list Action :=
  [CallStop 0; Tick 5; CallSetBlocking 0 false].
Definition after_callback_calls : World :=
  Eval vm_compute in after during_callback in_callback.

(** A second Job is built, given a context and stopped, and the caller
    cancels a context, while the first Job runs. *)
Definition elsewhere : list Action :=
  [CallSchedule every_second; CallExecute 1 (Some 3%nat);
   CallWithContext 1 parent; CallStart 1; Cancel 0; CallStop 1;
   Arm 0 0; Tick second; Fire 0].
Definition after_elsewhere : World :=
  Eval vm_compute in after elsewhere started.

End Scenario.
End Scenario.

(** * Properties *)

Section Properties.
Context `{L : _cron.Lib}.

(** ** What each method does to a Job that exists *)

Ltac run_method H :=
  unfold SetBlocking, SetTimezone, Execute, WithContext, Stop, Start,
    Start_guard, Start_launch, MarshalJSON, now, Now, bind, load, store,
    spawn, set_pc, call, WithCancel, modify, ret, panic;
  rewrite ?H; cbn.

Lemma load_nil (w : World) (j : nat) :
  jobs w !! j = None ->
  load j w = Panic "invalid memory address or nil pointer dereference".
Proof. intros H. unfold load. now rewrite H. Qed.

Lemma SetBlocking_ok (w : World) (j : nat) (job : Job.t) (b : bool) :
  jobs w !! j = Some job ->
  SetBlocking j b w
  = Ok j (set_jobs (fun h => <[j:=Job.set_Blocking b job]> h) w).
Proof. intros H. now run_method H. Qed.

Lemma SetTimezone_ok (w : World) (j : nat) (job : Job.t) loc :
  jobs w !! j = Some job ->
  SetTimezone j loc w
  = Ok j (set_jobs (fun h => <[j:=Job.set_Timezone loc job]> h) w).
Proof. intros H. now run_method H. Qed.

Lemma Execute_ok (w : World) (j : nat) (job : Job.t) fn :
  jobs w !! j = Some job ->
  Execute j fn w
  = Ok j (set_jobs (fun h => <[j:=Job.set_Fn fn job]> h) w).
Proof. intros H. now run_method H. Qed.

Lemma WithContext_ok (w : World) (j : nat) (job : Job.t) ctx cancel :
  jobs w !! j = Some job ->
  Job.cancelFunc job = Some cancel ->
  WithContext j ctx w
  = Ok j (set_jobs
            (fun h => <[j:=Job.set_Ctx
                             (context.WithCancel_ ctx
                                (context.Internal (next_token w)))
                             (Some (context.Internal (next_token w))) job]> h)
            (bump_token (add_cancelled cancel w))).
Proof. intros H Hc. run_method H. now rewrite Hc. Qed.

Lemma WithContext_ok_nil (w : World) (j : nat) (job : Job.t) ctx :
  jobs w !! j = Some job ->
  Job.cancelFunc job = None ->
  WithContext j ctx w
  = Ok j (set_jobs
            (fun h => <[j:=Job.set_Ctx
                             (context.WithCancel_ ctx
                                (context.Internal (next_token w)))
                             (Some (context.Internal (next_token w))) job]> h)
            (bump_token w)).
Proof. intros H Hc. run_method H. now rewrite Hc. Qed.

Lemma Stop_idle (w : World) (j : nat) (job : Job.t) :
  jobs w !! j = Some job ->
  Job.isRunning job = false ->
  Stop j w = Ok tt w.
Proof. intros H Hr. run_method H. now rewrite Hr. Qed.

Lemma Stop_running (w : World) (j : nat) (job : Job.t) cancel :
  jobs w !! j = Some job ->
  Job.isRunning job = true ->
  Job.cancelFunc job = Some cancel ->
  Stop j w
  = Ok tt (add_cancelled cancel
             (set_jobs (fun h => <[j:=Job.set_isRunning false job]> h) w)).
Proof. intros H Hr Hc. run_method H. rewrite Hr. cbn. now rewrite Hc. Qed.

Lemma Start_guard_refused (w : World) (j : nat) (job : Job.t) :
  jobs w !! j = Some job ->
  Job.Fn job = None \/ Job.isRunning job = true ->
  Start_guard j w = Ok None w.
Proof.
  intros H Hg. run_method H.
  destruct Hg as [-> | ->]; cbn; [reflexivity|].
  now rewrite orb_true_r.
Qed.

Lemma Start_guard_passed (w : World) (j : nat) (job : Job.t) fn :
  jobs w !! j = Some job ->
  Job.Fn job = Some fn ->
  Job.isRunning job = false ->
  Start_guard j w
  = Ok (Some (length (tasks w)))
       (set_tasks (fun ts => ts ++ [mkTask j Launching])
          (set_jobs (fun h => <[j:=Job.set_isRunning true job]> h) w)).
Proof. intros H Hf Hr. run_method H. now rewrite Hf, Hr. Qed.

Lemma Start_refused (w : World) (j : nat) (job : Job.t) :
  jobs w !! j = Some job ->
  Job.Fn job = None \/ Job.isRunning job = true ->
  Start j w = Ok tt w.
Proof.
  intros H Hg. unfold Start, bind.
  now rewrite (Start_guard_refused w j job H Hg).
Qed.

Lemma Start_passed (w : World) (j : nat) (job : Job.t) fn :
  jobs w !! j = Some job ->
  Job.Fn job = Some fn ->
  Job.isRunning job = false ->
  Start j w
  = Ok tt (set_tasks (fun ts => ts ++ [mkTask j (LoopTop (Job.Ctx job))])
             (set_jobs (fun h => <[j:=Job.set_isRunning true job]> h) w)).
Proof.
  intros H Hf Hr. unfold Start, bind.
  rewrite (Start_guard_passed w j job fn H Hf Hr).
  unfold Start_launch, bind, load, set_pc, modify, set_tasks, set_jobs. cbn.
  assert (Hlt : (j < length (jobs w))%nat) by (eapply lookup_lt_Some; eauto).
  rewrite list_lookup_insert_eq by exact Hlt. cbn.
  do 2 f_equal.
  rewrite insert_app_r_alt by lia.
  now rewrite Nat.sub_diag.
Qed.

Lemma Schedule_ok (w : World) (s : string) schedule :
  _cron.Parse (parser_for s) s = inl schedule ->
  Schedule s w
  = Ok (length (jobs w))
       (set_jobs (fun h => h ++ [fresh_job s schedule (next_token w)])
          (bump_token w)).
Proof.
  intros H. unfold Schedule. fold (parser_for s). rewrite H.
  reflexivity.
Qed.

Lemma Schedule_panic (w : World) (s : string) err :
  _cron.Parse (parser_for s) s = inr err ->
  Schedule s w = Panic "invalid cron schedule".
Proof.
  intros H. unfold Schedule. fold (parser_for s). now rewrite H.
Qed.

Lemma iteration_head_ok (w : World) (j : nat) (job : Job.t) (dt : Z) :
  jobs w !! j = Some job ->
  iteration_head j dt w
  = Ok (armed job dt w, Job.Blocking job) (set_clock (clock w + dt) w).
Proof.
  intros H. unfold iteration_head, now, Now, bind, load, modify, ret.
  repeat (rewrite H; cbn). reflexivity.
Qed.

Lemma iteration_head_nil (w : World) (j : nat) (dt : Z) :
  jobs w !! j = None ->
  exists msg, iteration_head j dt w = Panic msg.
Proof.
  intros H. unfold iteration_head, now, bind, load.
  rewrite H. eauto.
Qed.

(** ** The executable semantics and the relation agree *)

Lemma effect_Some {A} (m : M A) (w w' : World) :
  effect m w = Some w' <-> exists a, m w = Ok a w'.
Proof.
  unfold effect. destruct (m w) as [a w1|msg]; split.
  - intros [= ->]. eauto.
  - intros [a' [= _ ->]]. reflexivity.
  - discriminate.
  - intros [a' [=]].
Qed.

Lemma task_at_Some (w : World) (i j : nat) (pc : PC) :
  task_at w i = Some (j, pc) <-> tasks w !! i = Some (mkTask j pc).
Proof.
  unfold task_at. destruct (tasks w !! i) as [[j' pc']|]; cbn.
  - split; intros [= -> ->]; reflexivity.
  - split; discriminate.
Qed.

Ltac ok_inj H := injection H; clear H; intros; subst.

Lemma exec_step (a : Action) (w w' : World) :
  exec a w = Some w' -> step w a w'.
Proof.
  destruct a; cbn [exec]; intros H.
  - (* Schedule *)
    apply effect_Some in H as [r H].
    destruct (_cron.Parse (parser_for scheduleStr) scheduleStr) eqn:E.
    + rewrite (Schedule_ok _ _ _ E) in H. ok_inj H.
      now constructor.
    + now rewrite (Schedule_panic _ _ _ E) in H.
  - (* SetBlocking *)
    apply effect_Some in H as [r H].
    destruct (jobs w !! j) as [job|] eqn:E.
    + rewrite (SetBlocking_ok _ _ _ _ E) in H. ok_inj H.
      now constructor.
    + unfold SetBlocking, bind in H. now rewrite (load_nil _ _ E) in H.
  - (* WithContext *)
    destruct (context.allocated (next_token w) ctx) eqn:Ea; [|discriminate].
    apply effect_Some in H as [r H].
    destruct (jobs w !! j) as [job|] eqn:E.
    + destruct (Job.cancelFunc job) as [cancel|] eqn:Ec.
      * rewrite (WithContext_ok _ _ _ _ _ E Ec) in H. ok_inj H.
        now apply step_WithContext.
      * rewrite (WithContext_ok_nil _ _ _ _ E Ec) in H. ok_inj H.
        now apply step_WithContext_nil.
    + unfold WithContext, bind in H. now rewrite (load_nil _ _ E) in H.
  - (* SetTimezone *)
    apply effect_Some in H as [r H].
    destruct (jobs w !! j) as [job|] eqn:E.
    + rewrite (SetTimezone_ok _ _ _ _ E) in H. ok_inj H.
      now constructor.
    + unfold SetTimezone, bind in H. now rewrite (load_nil _ _ E) in H.
  - (* Execute *)
    apply effect_Some in H as [r H].
    destruct (jobs w !! j) as [job|] eqn:E.
    + rewrite (Execute_ok _ _ _ _ E) in H. ok_inj H.
      now constructor.
    + unfold Execute, bind in H. now rewrite (load_nil _ _ E) in H.
  - (* Start *)
    apply effect_Some in H as [r H].
    destruct (jobs w !! j) as [job|] eqn:E.
    + destruct (Job.Fn job) as [fn|] eqn:Ef.
      * destruct (Job.isRunning job) eqn:Er.
        -- rewrite (Start_refused _ _ _ E (or_intror Er)) in H.
           ok_inj H. eapply step_Start_refused; eauto.
        -- rewrite (Start_passed _ _ _ _ E Ef Er) in H.
           ok_inj H. eapply step_Start_passed; eauto.
      * rewrite (Start_refused _ _ _ E (or_introl Ef)) in H.
        ok_inj H. eapply step_Start_refused; eauto.
    + unfold Start, Start_guard, bind in H.
      now rewrite (load_nil _ _ E) in H.
  - (* Start_guard *)
    apply effect_Some in H as [r H].
    destruct (jobs w !! j) as [job|] eqn:E.
    + destruct (Job.Fn job) as [fn|] eqn:Ef.
      * destruct (Job.isRunning job) eqn:Er.
        -- rewrite (Start_guard_refused _ _ _ E (or_intror Er)) in H.
           ok_inj H. eapply step_Guard_refused; eauto.
        -- rewrite (Start_guard_passed _ _ _ _ E Ef Er) in H.
           ok_inj H. eapply step_Guard_passed; eauto.
      * rewrite (Start_guard_refused _ _ _ E (or_introl Ef)) in H.
        ok_inj H. eapply step_Guard_refused; eauto.
    + unfold Start_guard, bind in H. now rewrite (load_nil _ _ E) in H.
  - (* Start_launch *)
    destruct (task_at w i) as [[j pc]|] eqn:Et; [|discriminate].
    destruct pc; try discriminate.
    apply effect_Some in H as [r H].
    unfold Start_launch, bind, load in H.
    destruct (jobs w !! j) as [job|] eqn:E; [|discriminate].
    ok_inj H. eapply step_Launch; eauto.
  - (* Stop *)
    apply effect_Some in H as [r H].
    destruct (jobs w !! j) as [job|] eqn:E.
    + destruct (Job.isRunning job) eqn:Er.
      * destruct (Job.cancelFunc job) as [cancel|] eqn:Ec.
        -- rewrite (Stop_running _ _ _ _ E Er Ec) in H. ok_inj H.
           now apply step_Stop_running.
        -- unfold Stop, bind, load in H. rewrite E, Er in H. cbn in H.
           now rewrite Ec in H.
      * rewrite (Stop_idle _ _ _ E Er) in H. ok_inj H.
        eapply step_Stop_idle; eauto.
    + unfold Stop, bind in H. now rewrite (load_nil _ _ E) in H.
  - (* Tick *)
    destruct (0 <=? dt) eqn:E; [|discriminate]. ok_inj H.
    constructor. lia.
  - (* Cancel *)
    ok_inj H. constructor.
  - (* Arm *)
    unfold loop_arm in H.
    destruct (task_at w i) as [[j pc]|] eqn:Et; [|discriminate].
    destruct pc; try discriminate.
    destruct (0 <=? dt) eqn:Ed; [|discriminate].
    destruct (jobs w !! j) as [job|] eqn:E.
    + rewrite (iteration_head_ok _ _ _ _ E) in H. ok_inj H.
      eapply step_Arm; eauto. lia.
    + destruct (iteration_head_nil _ _ dt E) as [msg Hm].
      rewrite Hm in H. ok_inj H.
      eapply step_Arm_nil; eauto. lia.
  - (* Fire *)
    unfold loop_fire in H.
    destruct (task_at w i) as [[j pc]|] eqn:Et; [|discriminate].
    destruct pc; try discriminate.
    destruct (time.expired (clock w) timer) eqn:Ex; [|discriminate].
    destruct (jobs w !! j) as [job|] eqn:E.
    + destruct (Job.Fn job) as [fn|] eqn:Ef; ok_inj H.
      * eapply step_Fire; eauto.
      * eapply step_Fire_nil; eauto.
    + ok_inj H. eapply step_Fire_nil; eauto.
  - (* Return *)
    unfold loop_return in H.
    destruct (task_at w i) as [[j pc]|] eqn:Et; [|discriminate].
    destruct pc; try discriminate.
    ok_inj H. now constructor.
  - (* Observe *)
    unfold loop_done in H.
    destruct (task_at w i) as [[j pc]|] eqn:Et; [|discriminate].
    destruct pc; try discriminate.
    destruct (done_closed w done) eqn:Ed; [|discriminate].
    ok_inj H. eapply step_Observe; eauto.
Qed.

Lemma step_exec (a : Action) (w w' : World) :
  step w a w' -> exec a w = Some w'.
Proof.
  intros H. destruct H; cbn [exec].
  - now rewrite (proj2 (effect_Some _ _ _) (ex_intro _ _ (Schedule_ok _ _ _ H))).
  - now rewrite (proj2 (effect_Some _ _ _)
                   (ex_intro _ _ (SetBlocking_ok _ _ _ b H))).
  - now rewrite (proj2 (effect_Some _ _ _)
                   (ex_intro _ _ (SetTimezone_ok _ _ _ loc H))).
  - now rewrite (proj2 (effect_Some _ _ _)
                   (ex_intro _ _ (Execute_ok _ _ _ fn H))).
  - rewrite H1.
    now rewrite (proj2 (effect_Some _ _ _)
                   (ex_intro _ _ (WithContext_ok _ _ _ ctx _ H H0))).
  - rewrite H1.
    now rewrite (proj2 (effect_Some _ _ _)
                   (ex_intro _ _ (WithContext_ok_nil _ _ _ ctx H H0))).
  - now rewrite (proj2 (effect_Some _ _ _)
                   (ex_intro _ _ (Start_refused _ _ _ H H0))).
  - now rewrite (proj2 (effect_Some _ _ _)
                   (ex_intro _ _ (Start_passed _ _ _ _ H H0 H1))).
  - now rewrite (proj2 (effect_Some _ _ _)
                   (ex_intro _ _ (Start_guard_refused _ _ _ H H0))).
  - now rewrite (proj2 (effect_Some _ _ _)
                   (ex_intro _ _ (Start_guard_passed _ _ _ _ H H0 H1))).
  - rewrite H. unfold effect, Start_launch, bind, load. now rewrite H0.
  - now rewrite (proj2 (effect_Some _ _ _)
                   (ex_intro _ _ (Stop_idle _ _ _ H H0))).
  - now rewrite (proj2 (effect_Some _ _ _)
                   (ex_intro _ _ (Stop_running _ _ _ _ H H0 H1))).
  - now rewrite (proj2 (Z.leb_le 0 dt) H).
  - reflexivity.
  - unfold loop_arm. rewrite H, (proj2 (Z.leb_le 0 dt) H0).
    now rewrite (iteration_head_ok _ _ _ _ H1).
  - unfold loop_arm. rewrite H, (proj2 (Z.leb_le 0 dt) H0).
    destruct (iteration_head_nil _ _ dt H1) as [msg ->]. reflexivity.
  - unfold loop_fire. now rewrite H, H0, H1, H2.
  - unfold loop_fire. rewrite H, H0.
    destruct H1 as [-> | (job & -> & ->)]; reflexivity.
  - unfold loop_return. now rewrite H.
  - unfold loop_done. now rewrite H, H0.
Qed.

(** ** Runs *)

Lemma run_app (acts1 acts2 : list Action) (w : World) :
  run (acts1 ++ acts2) w
  = match run acts1 w with
    | Some w' => run acts2 w'
    | None => None
    end.
Proof.
  revert w. induction acts1 as [|a acts1 IH]; intros w; cbn.
  - reflexivity.
  - destruct (exec a w); [apply IH | reflexivity].
Qed.

Lemma reachable_exec (a : Action) (w w' : World) :
  reachable w -> exec a w = Some w' -> reachable w'.
Proof.
  intros (now & acts & Hr) He. exists now, (acts ++ [a]).
  rewrite run_app, Hr. cbn. now rewrite He.
Qed.

Lemma reachable_run (acts : list Action) (w w' : World) :
  reachable w -> run acts w = Some w' -> reachable w'.
Proof.
  revert w. induction acts as [|a acts IH]; intros w Hw; cbn.
  - now intros [= <-].
  - destruct (exec a w) as [w1|] eqn:E; [|discriminate].
    apply IH. eapply reachable_exec; eauto.
Qed.

(** Induction on the worlds a program can be in. *)
Lemma reachable_ind (P : World -> Prop) :
  (forall now, P (initial now)) ->
  (forall a w w', reachable w -> P w -> step w a w' -> P w') ->
  forall w, reachable w -> P w.
Proof.
  intros Hi Hs w (now & acts & Hr). revert w Hr.
  induction acts as [|a acts IH] using rev_ind; intros w Hr.
  - injection Hr as <-. apply Hi.
  - rewrite run_app in Hr.
    destruct (run acts (initial now)) as [w1|] eqn:E; [|discriminate].
    cbn in Hr. destruct (exec a w1) as [w2|] eqn:E2; [|discriminate].
    injection Hr as <-.
    apply (Hs a w1 w2); [exists now, acts; exact E | now apply IH |].
    now apply exec_step.
Qed.

(** ** The invariant of the worlds a program can be in *)

Lemma allocated_mono (n m : nat) (c : context.t) :
  (n <= m)%nat -> context.allocated n c = true ->
  context.allocated m c = true.
Proof.
  intros Hle.
  induction c as [|p IH [k|k]|p IH [k|k] d]; cbn [context.allocated]; auto;
    rewrite !andb_true_iff, !Nat.ltb_lt; intros [? ?]; (split; [lia|auto]).
Qed.

Lemma handle_ok_mono (n m : nat) (job : Job.t) :
  (n <= m)%nat -> handle_ok n job -> handle_ok m job.
Proof.
  intros Hle (p & k & Hc & Hf & Hk & Ha).
  exists p, k. repeat split; auto; [lia | eauto using allocated_mono].
Qed.

Lemma handle_ok_same (n : nat) (job job' : Job.t) :
  Job.Ctx job' = Job.Ctx job -> Job.cancelFunc job' = Job.cancelFunc job ->
  handle_ok n job -> handle_ok n job'.
Proof.
  intros Hc Hf (p & k & ? & ? & ? & ?). exists p, k.
  rewrite Hc, Hf. auto.
Qed.

Lemma Inv_initial (now : Z) : Inv (initial now).
Proof.
  split; cbn.
  - intros j job H. now rewrite lookup_nil in H.
  - intros k H. now apply not_elem_of_nil in H.
  - intros i t H. now rewrite lookup_nil in H.
Qed.

Lemma Inv_put (w : World) (j : nat) (job' : Job.t) :
  Inv w -> handle_ok (next_token w) job' -> Inv (put j job' w).
Proof.
  intros [Hj Hc Ht] Hok. split; cbn.
  - intros k job H. apply list_lookup_insert_Some in H as [(-> & <- & _)|[_ H]];
      eauto.
  - exact Hc.
  - intros i t H. rewrite length_insert. eauto.
Qed.

Lemma Inv_add_cancelled (w : World) (tok : context.Token) :
  Inv w ->
  (forall k, tok = context.Internal k -> (k < next_token w)%nat) ->
  Inv (add_cancelled tok w).
Proof.
  intros [Hj Hc Ht] Hk. split; cbn; auto.
  intros k H. apply elem_of_cons in H as [H|H]; auto.
Qed.

Lemma Inv_bump_token (w : World) : Inv w -> Inv (bump_token w).
Proof.
  intros [Hj Hc Ht]. split; cbn; auto.
  - intros j job H. eapply handle_ok_mono; [|eauto]. lia.
  - intros k H. specialize (Hc k H). lia.
Qed.

Lemma Inv_set_clock (w : World) (c : Z) : Inv w -> Inv (set_clock c w).
Proof. intros [Hj Hc Ht]. split; cbn; auto. Qed.

Lemma Inv_add_event (w : World) (e : Event) : Inv w -> Inv (add_event e w).
Proof. intros [Hj Hc Ht]. split; cbn; auto. Qed.

Lemma Inv_spawn (w : World) (j : nat) (pc : PC) :
  Inv w -> (j < length (jobs w))%nat ->
  Inv (set_tasks (fun ts => ts ++ [mkTask j pc]) w).
Proof.
  intros [Hj Hc Ht] Hlt. split; cbn; auto.
  intros i t H. apply lookup_app_Some in H as [H|[_ H]]; eauto.
  apply list_lookup_singleton_Some in H as [_ <-]. exact Hlt.
Qed.

Lemma Inv_goto (w : World) (i j : nat) (pc pc' : PC) :
  Inv w -> task_at w i = Some (j, pc) -> Inv (goto i j pc' w).
Proof.
  intros [Hj Hc Ht] Hi. apply task_at_Some in Hi. split; cbn; auto.
  intros k t H. apply list_lookup_insert_Some in H as [(-> & <- & _)|[_ H]];
    eauto.
  apply (Ht _ _ Hi).
Qed.

Lemma Inv_step (a : Action) (w w' : World) :
  Inv w -> step w a w' -> Inv w'.
Proof.
  intros HI Hs.
  assert (Hjobs := inv_jobs w HI).
  destruct Hs.
  - (* Schedule *)
    apply Inv_bump_token in HI. destruct HI as [Hj Hc Ht].
    split; cbn in *; auto.
    + intros j job H0. apply lookup_app_Some in H0 as [H0|[_ H0]]; eauto.
      apply list_lookup_singleton_Some in H0 as [_ <-].
      exists context.Background, (next_token w). cbn. repeat split; auto.
    + intros i t H0. rewrite length_app. specialize (Ht i t H0). lia.
  - apply Inv_put; auto.
    eapply handle_ok_same; [| |exact (Hjobs _ _ H)]; reflexivity.
  - apply Inv_put; auto.
    eapply handle_ok_same; [| |exact (Hjobs _ _ H)]; reflexivity.
  - apply Inv_put; auto.
    eapply handle_ok_same; [| |exact (Hjobs _ _ H)]; reflexivity.
  - apply Inv_put.
    + apply Inv_bump_token, Inv_add_cancelled; auto.
      intros k ->. destruct (Hjobs _ _ H) as (p & k' & _ & Hf & Hk & _).
      rewrite H0 in Hf. now injection Hf as ->.
    + exists ctx, (next_token w). cbn. repeat split; auto.
      eapply allocated_mono; [|eauto]. lia.
  - apply Inv_put.
    + now apply Inv_bump_token.
    + exists ctx, (next_token w). cbn. repeat split; auto.
      eapply allocated_mono; [|eauto]. lia.
  - assumption.
  - apply Inv_spawn.
    + apply Inv_put; auto.
      eapply handle_ok_same; [| |exact (Hjobs _ _ H)]; reflexivity.
    + cbn. rewrite length_insert. eapply lookup_lt_Some; eauto.
  - assumption.
  - apply Inv_spawn.
    + apply Inv_put; auto.
      eapply handle_ok_same; [| |exact (Hjobs _ _ H)]; reflexivity.
    + cbn. rewrite length_insert. eapply lookup_lt_Some; eauto.
  - eapply Inv_goto; eauto.
  - assumption.
  - apply Inv_add_cancelled.
    + apply Inv_put; auto.
      eapply handle_ok_same; [| |exact (Hjobs _ _ H)]; reflexivity.
    + intros k ->. destruct (Hjobs _ _ H) as (p & k' & _ & Hf & Hk & _).
      rewrite H1 in Hf. now injection Hf as ->.
  - now apply Inv_set_clock.
  - apply Inv_add_cancelled; auto. discriminate.
  - eapply Inv_goto; [now apply Inv_set_clock | exact H].
  - eapply Inv_goto; eauto.
  - eapply Inv_goto; [now apply Inv_add_event | exact H].
  - eapply Inv_goto; eauto.
  - eapply Inv_goto; eauto.
  - eapply Inv_goto; eauto.
Qed.

Lemma reachable_Inv (w : World) : reachable w -> Inv w.
Proof.
  apply reachable_ind; [apply Inv_initial|].
  intros a w0 w' _. apply Inv_step.
Qed.

(** ** Replacing one Job in the heap *)

Lemma put_heap (w : World) (j : nat) (job job' : Job.t) :
  jobs w !! j = Some job -> Frame.heap w (put j job' w) j job'.
Proof.
  intros H. unfold Frame.heap, put. cbn. repeat split.
  - apply list_lookup_insert_eq. eapply lookup_lt_Some; eauto.
  - apply length_insert.
  - intros k Hk. now apply list_lookup_insert_ne.
Qed.

Lemma put_rest (w : World) (j : nat) (job' : Job.t) :
  Frame.rest w (put j job' w).
Proof. repeat split. Qed.

(** C10: each fluent mutator (SetBlocking, SetTimezone, Execute) returns
    the Job it was called on and changes only its own field of that Job:
    the other seven fields, the other Jobs, the cancellation tokens, the
    clock, the goroutines and the dispatch log are as before. *)
Theorem mutators_return_receiver (w : World) (j : nat) (job : Job.t) :
  jobs w !! j = Some job ->
  (forall blocking, exists w' job',
      SetBlocking j blocking w = Ok j w' /\
      Frame.heap w w' j job' /\ Frame.rest w w' /\
      Job.Blocking job' = blocking /\
      forall f, f <> Frame.Blocking -> Frame.same f job' job) /\
  (forall loc, exists w' job',
      SetTimezone j loc w = Ok j w' /\
      Frame.heap w w' j job' /\ Frame.rest w w' /\
      Job.Timezone job' = loc /\
      forall f, f <> Frame.Timezone -> Frame.same f job' job) /\
  (forall fn, exists w' job',
      Execute j fn w = Ok j w' /\
      Frame.heap w w' j job' /\ Frame.rest w w' /\
      Job.Fn job' = fn /\
      forall f, f <> Frame.Fn -> Frame.same f job' job).
Proof.
  intros H. repeat split.
  - intros b. eexists _, _. split; [apply (SetBlocking_ok _ _ _ b H)|].
    split; [eapply put_heap; eauto|]. split; [apply put_rest|].
    split; [reflexivity|]. intros [] Hf; cbn; congruence.
  - intros loc. eexists _, _. split; [apply (SetTimezone_ok _ _ _ loc H)|].
    split; [eapply put_heap; eauto|]. split; [apply put_rest|].
    split; [reflexivity|]. intros [] Hf; cbn; congruence.
  - intros fn. eexists _, _. split; [apply (Execute_ok _ _ _ fn H)|].
    split; [eapply put_heap; eauto|]. split; [apply put_rest|].
    split; [reflexivity|]. intros [] Hf; cbn; congruence.
Qed.

(** ** Cancellation *)

Lemma Done_cancel_own (cs : list context.Token) (now : Z) p tok :
  context.Done (tok :: cs) now (context.WithCancel_ p tok) = true.
Proof.
  cbn. rewrite bool_decide_eq_true_2; [reflexivity | apply elem_of_cons; auto].
Qed.

(** Cancelling a token no node of [c] carries leaves [c] as it was. *)
Lemma Done_cancel_fresh (cs : list context.Token) (now : Z) (n : nat)
    (c : context.t) :
  context.allocated n c = true ->
  context.Done (context.Internal n :: cs) now c = context.Done cs now c.
Proof.
  induction c as [|p IH tok|p IH tok d]; cbn [context.Done context.allocated];
    [reflexivity| |].
  - intros Ha.
    assert (Hp : context.allocated n p = true)
      by (destruct tok; [apply andb_true_iff in Ha as [_ Ha]|]; exact Ha).
    rewrite (IH Hp). f_equal.
    apply bool_decide_ext. rewrite elem_of_cons.
    split; [intros [E|E]; [|exact E] | auto].
    subst tok. apply andb_true_iff in Ha as [Ha _].
    apply Nat.ltb_lt in Ha. lia.
  - intros Ha.
    assert (Hp : context.allocated n p = true)
      by (destruct tok; [apply andb_true_iff in Ha as [_ Ha]|]; exact Ha).
    rewrite (IH Hp). do 2 f_equal.
    apply bool_decide_ext. rewrite elem_of_cons.
    split; [intros [E|E]; [|exact E] | auto].
    subst tok. apply andb_true_iff in Ha as [Ha _].
    apply Nat.ltb_lt in Ha. lia.
Qed.

(** C4: on a Job that is running, Stop clears the running flag and calls
    the cancel function of the current handle, whose Done channel is closed
    from then on, and changes nothing else; on a Job that is not running
    (never started, or stopped already) Stop returns normally and the world
    is as before. *)
Theorem Stop_cancels_iff_running (w : World) (j : nat) (job : Job.t) :
  reachable w ->
  jobs w !! j = Some job ->
  if Job.isRunning job then
    exists w' job' cancel,
      Stop j w = Ok tt w' /\
      Frame.heap w w' j job' /\
      Job.isRunning job' = false /\
      (forall f, f <> Frame.isRunning -> Frame.same f job' job) /\
      Job.cancelFunc job = Some cancel /\
      cancelled w' = cancel :: cancelled w /\
      done_closed w' (Job.Ctx job) = true /\
      next_token w' = next_token w /\ clock w' = clock w /\
      tasks w' = tasks w /\ events w' = events w
  else Stop j w = Ok tt w.
Proof.
  intros Hr H. destruct (Job.isRunning job) eqn:Er.
  - destruct (inv_jobs w (reachable_Inv w Hr) j job H)
      as (p & k & Hc & Hf & _).
    eexists _, _, _. split; [apply (Stop_running _ _ _ _ H Er Hf)|].
    split; [eapply (put_heap w); eauto|].
    split; [reflexivity|].
    split; [intros [] ?; cbn; congruence|].
    split; [exact Hf|]. split; [reflexivity|].
    split; [|repeat split].
    rewrite Hc. apply Done_cancel_own.
  - apply (Stop_idle _ _ _ H Er).
Qed.

(** C5: WithContext first calls the cancel function of the handle the Job
    holds, whose Done channel is closed from then on, then installs a new
    handle derived from the parent it was given and returns the Job it was
    called on.  Whenever the parent's Done channel is closed so is the new
    handle's; calling the new handle's cancel function leaves the parent as
    it was.  No other field of the Job changes. *)
Theorem WithContext_derives_from_parent (w : World) (j : nat) (job : Job.t)
    (ctx : context.t) :
  reachable w ->
  jobs w !! j = Some job ->
  context.allocated (next_token w) ctx = true ->
  exists w' job' old cancel,
    WithContext j ctx w = Ok j w' /\
    Frame.heap w w' j job' /\
    Job.cancelFunc job = Some old /\
    cancelled w' = old :: cancelled w /\
    done_closed w' (Job.Ctx job) = true /\
    Job.Ctx job' = context.WithCancel_ ctx cancel /\
    Job.cancelFunc job' = Some cancel /\
    (cancel ∉ cancelled w') /\
    (forall f, f <> Frame.Ctx -> f <> Frame.cancelFunc ->
               Frame.same f job' job) /\
    (forall cs now, context.Done cs now ctx = true ->
                    context.Done cs now (Job.Ctx job') = true) /\
    (forall cs now, context.Done (cancel :: cs) now (Job.Ctx job') = true /\
                    context.Done (cancel :: cs) now ctx
                    = context.Done cs now ctx) /\
    clock w' = clock w /\ tasks w' = tasks w /\ events w' = events w.
Proof.
  intros Hr H Ha.
  pose proof (reachable_Inv w Hr) as HI.
  destruct (inv_jobs w HI j job H) as (p & k & Hc & Hf & Hk & _).
  eexists _, _, _, _. split; [apply (WithContext_ok _ _ _ ctx _ H Hf)|].
  split; [eapply (put_heap (bump_token (add_cancelled _ w))); eauto|].
  split; [exact Hf|]. split; [reflexivity|].
  split; [rewrite Hc; apply Done_cancel_own|].
  split; [reflexivity|]. split; [reflexivity|].
  split.
  { cbn. intros Hin. apply elem_of_cons in Hin as [Hin|Hin].
    - injection Hin as Hin. lia.
    - apply (inv_cancelled w HI) in Hin. lia. }
  split; [intros [] ? ?; cbn; congruence|].
  split.
  { intros cs now Hd. cbn. rewrite Hd. apply orb_true_r. }
  split; [|repeat split].
  intros cs now. split; [apply Done_cancel_own|].
  now apply Done_cancel_fresh.
Qed.

(** ** Construction *)


(** No step replaces the expression string or the compiled schedule of a
    Job, and no step removes a Job. *)
Lemma step_keeps_schedule (a : Action) (w w' : World) (j : nat)
    (job : Job.t) :
  step w a w' ->
  jobs w !! j = Some job ->
  exists job', jobs w' !! j = Some job' /\
               Job.scheduleStr job' = Job.scheduleStr job /\
               Job.Schedule job' = Job.Schedule job.
Proof.
  intros Hs Hj.
  assert (Hput : forall i x wx,
             jobs wx = jobs w ->
             jobs w !! i = Some x ->
             forall y, Job.scheduleStr y = Job.scheduleStr x ->
                       Job.Schedule y = Job.Schedule x ->
             exists job', jobs (put i y wx) !! j = Some job' /\
                          Job.scheduleStr job' = Job.scheduleStr job /\
                          Job.Schedule job' = Job.Schedule job).
  { intros i x wx Hw Hi y Hy1 Hy2. cbn. rewrite Hw.
    destruct (decide (i = j)) as [->|Hne].
    - rewrite list_lookup_insert_eq by (eapply lookup_lt_Some; eauto).
      exists y. rewrite Hi in Hj. injection Hj as ->. auto.
    - rewrite list_lookup_insert_ne by exact Hne. eauto. }
  destruct Hs; cbn [jobs set_tasks add_cancelled goto set_clock add_event];
    eauto.
  - exists job. cbn. rewrite lookup_app_l by (eapply lookup_lt_Some; eauto).
    auto.
Qed.

Lemma run_keeps_schedule (acts : list Action) (w w' : World) (j : nat)
    (job : Job.t) :
  run acts w = Some w' ->
  jobs w !! j = Some job ->
  exists job', jobs w' !! j = Some job' /\
               Job.scheduleStr job' = Job.scheduleStr job /\
               Job.Schedule job' = Job.Schedule job.
Proof.
  revert w job. induction acts as [|a acts IH]; intros w job; cbn.
  - intros [= <-] H. eauto.
  - destruct (exec a w) as [w1|] eqn:E; [|discriminate].
    intros Hr H.
    destruct (step_keeps_schedule a w w1 j job (exec_step _ _ _ E) H)
      as (job1 & H1 & Hs1 & Hs2).
    destruct (IH w1 job1 Hr H1) as (job' & H' & Hs1' & Hs2').
    exists job'. split; [exact H'|]. split; congruence.
Qed.

(** C7: for an expression its parser accepts, Schedule returns a new Job
    with Blocking false, Timezone UTC, no callback, not running, the
    expression string and the compiled schedule as given, and a handle
    derived from the background context alone with a cancel function no
    other Job holds: its Done channel is open, and is closed by that cancel
    function only.  Whatever happens afterwards, the Job keeps that
    expression string and that compiled schedule. *)
Theorem Schedule_defaults (w : World) (s : string)
    (schedule : _cron.Schedule) :
  reachable w ->
  _cron.Parse (parser_for s) s = inl schedule ->
  exists w' job cancel,
    Schedule s w = Ok (length (jobs w)) w' /\
    jobs w' !! length (jobs w) = Some job /\
    (forall k other, jobs w !! k = Some other ->
                     jobs w' !! k = Some other /\
                     Job.cancelFunc other <> Some cancel) /\
    Job.scheduleStr job = s /\
    Job.Schedule job = schedule /\
    Job.Blocking job = false /\
    Job.Timezone job = time.UTC /\
    Job.Fn job = None /\
    Job.isRunning job = false /\
    Job.Ctx job = context.WithCancel_ context.Background cancel /\
    Job.cancelFunc job = Some cancel /\
    done_closed w' (Job.Ctx job) = false /\
    (forall cs now, context.Done cs now (Job.Ctx job)
                    = bool_decide (cancel ∈ cs)) /\
    (forall acts w'', run acts w' = Some w'' ->
       exists job'', jobs w'' !! length (jobs w) = Some job'' /\
                     Job.scheduleStr job'' = s /\
                     Job.Schedule job'' = schedule).
Proof.
  intros Hr E. pose proof (reachable_Inv w Hr) as HI.
  assert (Hnew : jobs (set_jobs
                         (fun h => h ++ [fresh_job s schedule (next_token w)])
                         (bump_token w)) !! length (jobs w)
                 = Some (fresh_job s schedule (next_token w))).
  { cbn. rewrite lookup_app_r by reflexivity. now rewrite Nat.sub_diag. }
  eexists _, _, (context.Internal (next_token w)).
  split; [apply (Schedule_ok _ _ _ E)|].
  split; [exact Hnew|].
  split.
  { intros k other Hk. split.
    - cbn. rewrite lookup_app_l by (eapply lookup_lt_Some; eauto). exact Hk.
    - destruct (inv_jobs w HI k other Hk) as (p & n & _ & Hf & Hn & _).
      rewrite Hf. intros [= ->]. lia. }
  do 8 (split; [reflexivity|]).
  split.
  { unfold done_closed. cbn. rewrite orb_false_r.
    apply bool_decide_eq_false_2. intros Hin.
    apply (inv_cancelled w HI) in Hin. lia. }
  split; [intros cs now; cbn; apply orb_false_r|].
  intros acts w'' Hrun.
  destruct (run_keeps_schedule acts _ w'' _ _ Hrun Hnew) as (job'' & ? & ? & ?).
  exists job''. auto.
Qed.


(** ** What a step leaves alone *)

Lemma Done_mono (cs cs' : list context.Token) (now now' : Z)
    (c : context.t) :
  cs ⊆ cs' -> now <= now' ->
  context.Done cs now c = true -> context.Done cs' now' c = true.
Proof.
  intros Hs Hn. induction c as [|p IH tok|p IH tok d]; cbn; [auto| |].
  - rewrite !orb_true_iff, !bool_decide_eq_true. intros [H|H]; auto.
  - rewrite !orb_true_iff, !bool_decide_eq_true, !Z.leb_le.
    intros [[H|H]|H]; auto. left. right. lia.
Qed.

Lemma step_grows (a : Action) (w w' : World) :
  step w a w' ->
  cancelled w ⊆ cancelled w' /\ clock w <= clock w' /\
  (next_token w <= next_token w')%nat.
Proof.
  intros Hs. destruct Hs; cbn; repeat split;
    try reflexivity; try lia; try (apply list_subseteq_cons; reflexivity).
Qed.

Lemma step_keeps_done (a : Action) (w w' : World) (d : context.t) :
  step w a w' -> done_closed w d = true -> done_closed w' d = true.
Proof.
  intros Hs. destruct (step_grows a w w' Hs) as (Hc & Ht & _).
  now apply Done_mono.
Qed.

Lemma run_keeps_done (acts : list Action) (w w' : World) (d : context.t) :
  run acts w = Some w' -> done_closed w d = true -> done_closed w' d = true.
Proof.
  revert w. induction acts as [|a acts IH]; intros w; cbn.
  - now intros [= <-].
  - destruct (exec a w) as [w1|] eqn:E; [|discriminate].
    intros Hr Hd. apply (IH w1 Hr).
    eapply step_keeps_done; eauto using exec_step.
Qed.

Lemma goto_other (w : World) (i i' j : nat) (pc : PC) :
  i' <> i -> task_at (goto i' j pc w) i = task_at w i.
Proof.
  intros Hne. unfold task_at, goto. cbn.
  now rewrite list_lookup_insert_ne.
Qed.

Lemma goto_self (w : World) (i j : nat) (pc0 pc : PC) :
  task_at w i = Some (j, pc0) -> task_at (goto i j pc w) i = Some (j, pc).
Proof.
  intros H. apply task_at_Some in H. unfold task_at, goto. cbn.
  rewrite list_lookup_insert_eq by (eapply lookup_lt_Some; eauto).
  reflexivity.
Qed.

Lemma spawn_other (w : World) (i : nat) (t : Task) (x : nat * PC) :
  task_at w i = Some x ->
  task_at (set_tasks (fun ts => ts ++ [t]) w) i = Some x.
Proof.
  unfold task_at. cbn. intros H.
  destruct (tasks w !! i) as [t0|] eqn:E; [|discriminate].
  now rewrite (lookup_app_l_Some _ _ _ _ E).
Qed.

(** A goroutine moves only by its own steps. *)
Lemma step_keeps_task (a : Action) (w w' : World) (i : nat)
    (x : nat * PC) :
  step w a w' -> actor a <> Some i ->
  task_at w i = Some x -> task_at w' i = Some x.
Proof.
  intros Hs Ha Hx.
  destruct Hs; cbn [actor] in Ha;
    try exact Hx;
    try (apply spawn_other; exact Hx);
    try (rewrite goto_other by congruence; exact Hx).
Qed.

(** A goroutine waiting at the select leaves it through one of the two
    cases only. *)
Lemma step_keeps_select (a : Action) (w w' : World) (i j : nat) d timer b :
  step w a w' -> a <> Fire i -> a <> Observe i ->
  task_at w i = Some (j, Select d timer b) ->
  task_at w' i = Some (j, Select d timer b).
Proof.
  intros Hs Hf Ho Hx.
  destruct (decide (actor a = Some i)) as [Ha|Ha];
    [|eapply step_keeps_task; eauto].
  destruct Hs; cbn [actor] in Ha; try discriminate;
    injection Ha as ->; congruence.
Qed.

(** A goroutine that has ended stays so, and dispatches nothing more. *)
Lemma step_keeps_returned (a : Action) (w w' : World) (i j : nat) timer :
  step w a w' ->
  task_at w i = Some (j, Returned timer) ->
  task_at w' i = Some (j, Returned timer) /\
  dispatches w' i = dispatches w i.
Proof.
  intros Hs Hx. split.
  - destruct (decide (actor a = Some i)) as [Ha|Ha];
      [|eapply step_keeps_task; eauto].
    destruct Hs; cbn [actor] in Ha; try discriminate;
      injection Ha as ->; congruence.
  - destruct Hs; try reflexivity.
    unfold dispatches. cbn [events goto set_tasks add_event].
    rewrite filter_cons_False; [reflexivity|].
    cbn. intros ->. congruence.
Qed.

Lemma run_keeps_returned (acts : list Action) (w w' : World) (i j : nat)
    timer :
  run acts w = Some w' ->
  task_at w i = Some (j, Returned timer) ->
  task_at w' i = Some (j, Returned timer) /\
  dispatches w' i = dispatches w i.
Proof.
  revert w. induction acts as [|a acts IH]; intros w; cbn.
  - intros [= <-]. auto.
  - destruct (exec a w) as [w1|] eqn:E; [|discriminate].
    intros Hr Hx.
    destruct (step_keeps_returned a w w1 i j timer (exec_step _ _ _ E) Hx)
      as [H1 H2].
    destruct (IH w1 Hr H1) as [H3 H4]. split; congruence.
Qed.

Lemma run_keeps_select (acts : list Action) (w w' : World) (i j : nat)
    d timer b :
  Forall (fun a => a <> Fire i /\ a <> Observe i) acts ->
  run acts w = Some w' ->
  task_at w i = Some (j, Select d timer b) ->
  task_at w' i = Some (j, Select d timer b).
Proof.
  intros Hok. revert w. induction Hok as [|a acts [Hf Ho] _ IH];
    intros w; cbn.
  - now intros [= <-].
  - destruct (exec a w) as [w1|] eqn:E; [|discriminate].
    intros Hr Hx. apply (IH w1 Hr).
    eapply step_keeps_select; eauto using exec_step.
Qed.

(** ** The Done channel read at line 134 *)

Lemma step_keeps_ctx (a : Action) (w w' : World) (j : nat) (job : Job.t) :
  step w a w' -> Inv w ->
  jobs w !! j = Some job ->
  exists job', jobs w' !! j = Some job' /\
               (Job.Ctx job' = Job.Ctx job \/
                done_closed w' (Job.Ctx job) = true).
Proof.
  intros Hs HI Hj.
  assert (Hput : forall i x y wx,
             jobs wx = jobs w ->
             jobs w !! i = Some x ->
             Job.Ctx y = Job.Ctx x \/
             done_closed (put i y wx) (Job.Ctx x) = true ->
             exists job', jobs (put i y wx) !! j = Some job' /\
                          (Job.Ctx job' = Job.Ctx job \/
                           done_closed (put i y wx) (Job.Ctx job) = true)).
  { intros i x y wx Hw Hi Hy. cbn [jobs put set_jobs]. rewrite Hw.
    destruct (decide (i = j)) as [->|Hne].
    - rewrite list_lookup_insert_eq by (eapply lookup_lt_Some; eauto).
      exists y. rewrite Hi in Hj. injection Hj as ->. auto.
    - rewrite list_lookup_insert_ne by exact Hne. eauto. }
  destruct Hs;
    try (exists job; split; [exact Hj | now left]);
    try (apply (Hput _ _ _ _ eq_refl H); now left).
  - exists job. split; [|now left].
    cbn. now rewrite lookup_app_l by (eapply lookup_lt_Some; eauto).
  - apply (Hput j0 job0 _ (bump_token (add_cancelled cancel w)) eq_refl H).
    right.
    destruct (inv_jobs w HI _ _ H) as (p & k & Hc & Hf & _).
    rewrite H0 in Hf. injection Hf as ->. rewrite Hc.
    apply Done_cancel_own.
  - destruct (inv_jobs w HI _ _ H) as (p & k & _ & Hf & _). congruence.
  - destruct (Hput j0 job0 (Job.set_isRunning false job0) w eq_refl H
                (or_introl eq_refl)) as (job' & H2 & H3).
    exists job'. split; [exact H2|].
    destruct H3 as [H3|H3]; [now left|right].
    eapply Done_mono; [| |exact H3]; [|reflexivity].
    apply list_subseteq_cons. reflexivity.
Qed.

Lemma step_task_origin (a : Action) (w w' : World) (i : nat) (t : Task)
    (d : context.t) :
  step w a w' ->
  tasks w' !! i = Some t -> pc_done (t_pc t) = Some d ->
  (exists t0, tasks w !! i = Some t0 /\ t_job t0 = t_job t /\
              pc_done (t_pc t0) = Some d) \/
  (exists job', jobs w' !! t_job t = Some job' /\ d = Job.Ctx job').
Proof.
  intros Hs Ht Hd.
  assert (Hgoto : forall i0 j0 pc0 pc wx,
             tasks wx = tasks w ->
             task_at w i0 = Some (j0, pc0) ->
             tasks (goto i0 j0 pc wx) !! i = Some t ->
             pc_done pc = pc_done pc0 \/ pc_done pc = None ->
             exists t0, tasks w !! i = Some t0 /\ t_job t0 = t_job t /\
                        pc_done (t_pc t0) = Some d).
  { intros i0 j0 pc0 pc wx Hw H0 H1 Hpc. cbn in H1. rewrite Hw in H1.
    apply task_at_Some in H0.
    apply list_lookup_insert_Some in H1 as [(-> & <- & _)|[_ H1]]; eauto.
    exists (mkTask j0 pc0). cbn in *.
    destruct Hpc as [Hpc|Hpc]; rewrite Hpc in Hd; [auto|discriminate]. }
  destruct Hs; try (left; eauto; fail);
    try (left; eapply Hgoto; eauto; fail).
  - (* Start *)
    cbn in Ht. apply lookup_app_Some in Ht as [Ht|[_ Ht]]; [left; eauto|].
    apply list_lookup_singleton_Some in Ht as [_ <-]. right. cbn in *.
    injection Hd as <-. exists (Job.set_isRunning true job). split; [|reflexivity].
    apply list_lookup_insert_eq. eapply lookup_lt_Some; eauto.
  - (* Start_guard *)
    cbn in Ht. apply lookup_app_Some in Ht as [Ht|[_ Ht]]; [left; eauto|].
    apply list_lookup_singleton_Some in Ht as [_ <-]. discriminate.
  - (* Start_launch *)
    cbn in Ht. apply task_at_Some in H.
    apply list_lookup_insert_Some in Ht as [(-> & <- & _)|[_ Ht]];
      [right|left; eauto].
    cbn in *. injection Hd as <-. eauto.
  - (* Arm *)
    left. eapply (Hgoto i0 j _ _ (set_clock _ w)); eauto.
  - (* Fire *)
    left. eapply (Hgoto i0 j _ _ (add_event _ w)); eauto.
    destruct isBlocking; auto.
Qed.

Lemma done_held_step (a : Action) (w w' : World) :
  step w a w' -> Inv w -> done_held w -> done_held w'.
Proof.
  intros Hs HI Hh i t d Ht Hd.
  destruct (step_task_origin a w w' i t d Hs Ht Hd)
    as [(t0 & Ht0 & Hj & Hd0)|(job' & Hj' & ->)]; [|eauto].
  destruct (Hh i t0 d Ht0 Hd0) as (job & Hjob & Hor).
  rewrite Hj in Hjob.
  destruct (step_keeps_ctx a w w' _ job Hs HI Hjob) as (job' & Hj' & Hc).
  exists job'. split; [exact Hj'|].
  destruct Hor as [->|Hcl].
  - destruct Hc as [Hc|Hc]; auto.
  - right. eapply step_keeps_done; eauto.
Qed.

Lemma reachable_done_held (w : World) : reachable w -> done_held w.
Proof.
  apply reachable_ind.
  - intros now i t d H. cbn in H. now rewrite lookup_nil in H.
  - intros a w0 w' Hr Hh Hs.
    eapply done_held_step; eauto using reachable_Inv.
Qed.

(** ** The running flag *)

Lemma filter_insert_length {A} (P : A -> Prop) `{!forall x, Decision (P x)}
    (l : list A) (i : nat) (x y : A) :
  l !! i = Some x -> (P x <-> P y) ->
  length (filter P (<[i:=y]> l)) = length (filter P l).
Proof.
  intros Hl Hxy. revert i Hl.
  induction l as [|a l IH]; intros [|i] Hl; cbn in Hl; try discriminate.
  - injection Hl as ->. cbn [insert list_insert].
    rewrite !filter_cons.
    destruct (decide (P y)), (decide (P x)); tauto.
  - cbn [insert list_insert]. rewrite !filter_cons.
    destruct (decide (P a)); cbn; [f_equal|]; apply (IH i Hl).
Qed.

Lemma launched_goto (w wx : World) (i j0 j : nat) (pc0 pc : PC) :
  tasks wx = tasks w ->
  task_at w i = Some (j0, pc0) ->
  launched (goto i j0 pc wx) j = launched w j.
Proof.
  intros Hw H. apply task_at_Some in H. unfold launched, goto. cbn.
  rewrite Hw. now apply (filter_insert_length _ _ _ _ _ H).
Qed.

Lemma launched_spawn (w : World) (j0 j : nat) (pc : PC) :
  launched (set_tasks (fun ts => ts ++ [mkTask j0 pc]) w) j
  = (launched w j + if decide (j0 = j) then 1 else 0)%nat.
Proof.
  unfold launched. cbn. rewrite filter_app, length_app. f_equal.
  rewrite filter_cons. cbn. destruct (decide (j0 = j)); reflexivity.
Qed.

Lemma active_spawn (w : World) (j0 j : nat) (pc : PC) :
  active pc = true ->
  active_loops (set_tasks (fun ts => ts ++ [mkTask j0 pc]) w) j
  = (active_loops w j + if decide (j0 = j) then 1 else 0)%nat.
Proof.
  intros Ha. unfold active_loops. cbn. rewrite filter_app, length_app.
  f_equal. rewrite filter_cons. cbn. rewrite Ha.
  destruct (decide (j0 = j)).
  - rewrite decide_True by auto. reflexivity.
  - rewrite decide_False by tauto. reflexivity.
Qed.

(** Only Stop clears the flag, and while it is set no goroutine of the
    loop is launched for the Job. *)
Lemma step_keeps_running (a : Action) (w w' : World) (j : nat)
    (job : Job.t) :
  step w a w' -> a <> CallStop j ->
  jobs w !! j = Some job -> Job.isRunning job = true ->
  exists job', jobs w' !! j = Some job' /\ Job.isRunning job' = true /\
               launched w' j = launched w j.
Proof.
  intros Hs Ha Hj Hr.
  assert (Hput : forall i x y wx,
             jobs wx = jobs w ->
             jobs w !! i = Some x ->
             (i = j -> Job.isRunning y = true) ->
             exists job', jobs (put i y wx) !! j = Some job' /\
                          Job.isRunning job' = true).
  { intros i x y wx Hw Hi Hy. cbn [jobs put set_jobs]. rewrite Hw.
    destruct (decide (i = j)) as [->|Hne].
    - rewrite list_lookup_insert_eq by (eapply lookup_lt_Some; eauto).
      exists y. auto.
    - rewrite list_lookup_insert_ne by exact Hne. eauto. }
  assert (Hsame : forall i x, jobs w !! i = Some x -> i = j -> x = job)
    by (intros i x Hi ->; congruence).
  destruct Hs.
  - exists job. split; [|split; [exact Hr|reflexivity]].
    cbn. now rewrite lookup_app_l by (eapply lookup_lt_Some; eauto).
  - destruct (Hput j0 job0 (Job.set_Blocking b job0) w eq_refl H) as (y & ? & ?).
    { intros E. now rewrite (Hsame _ _ H E). }
    exists y. auto.
  - destruct (Hput j0 job0 (Job.set_Timezone loc job0) w eq_refl H) as (y & ? & ?).
    { intros E. now rewrite (Hsame _ _ H E). }
    exists y. auto.
  - destruct (Hput j0 job0 (Job.set_Fn fn job0) w eq_refl H) as (y & ? & ?).
    { intros E. now rewrite (Hsame _ _ H E). }
    exists y. auto.
  - destruct (Hput j0 job0 (rehandled ctx (next_token w) job0)
                (bump_token (add_cancelled cancel w)) eq_refl H) as (y & ? & ?).
    { intros E. cbn. now rewrite (Hsame _ _ H E). }
    exists y. auto.
  - destruct (Hput j0 job0 (rehandled ctx (next_token w) job0)
                (bump_token w) eq_refl H) as (y & ? & ?).
    { intros E. cbn. now rewrite (Hsame _ _ H E). }
    exists y. auto.
  - eauto.
  - destruct (Hput j0 job0 (Job.set_isRunning true job0) w eq_refl H)
      as (y & ? & ?); [reflexivity|].
    exists y. split; [assumption|]. split; [assumption|].
    rewrite launched_spawn.
    destruct (decide (j0 = j)) as [E|E]; [|unfold launched; cbn; lia].
    rewrite (Hsame _ _ H E) in H1. congruence.
  - eauto.
  - destruct (Hput j0 job0 (Job.set_isRunning true job0) w eq_refl H)
      as (y & ? & ?); [reflexivity|].
    exists y. split; [assumption|]. split; [assumption|].
    rewrite launched_spawn.
    destruct (decide (j0 = j)) as [E|E]; [|unfold launched; cbn; lia].
    rewrite (Hsame _ _ H E) in H1. congruence.
  - exists job. split; [exact Hj|]. split; [exact Hr|].
    eapply launched_goto; eauto.
  - eauto.
  - destruct (Hput j0 job0 (Job.set_isRunning false job0) w eq_refl H)
      as (y & ? & ?); [intros ->; congruence|].
    exists y. auto.
  - eauto.
  - eauto.
  - exists job. split; [exact Hj|]. split; [exact Hr|].
    eapply (launched_goto w (set_clock _ w)); eauto.
  - exists job. split; [exact Hj|]. split; [exact Hr|].
    eapply launched_goto; eauto.
  - exists job. split; [exact Hj|]. split; [exact Hr|].
    eapply (launched_goto w (add_event _ w)); eauto.
  - exists job. split; [exact Hj|]. split; [exact Hr|].
    eapply launched_goto; eauto.
  - exists job. split; [exact Hj|]. split; [exact Hr|].
    eapply launched_goto; eauto.
  - exists job. split; [exact Hj|]. split; [exact Hr|].
    eapply launched_goto; eauto.
Qed.

Lemma run_keeps_running (acts : list Action) (w w' : World) (j : nat)
    (job : Job.t) :
  Forall (fun a => a <> CallStop j) acts ->
  run acts w = Some w' ->
  jobs w !! j = Some job -> Job.isRunning job = true ->
  exists job', jobs w' !! j = Some job' /\ Job.isRunning job' = true /\
               launched w' j = launched w j.
Proof.
  intros Hok. revert w job.
  induction Hok as [|a acts Ha _ IH]; intros w job; cbn.
  - intros [= <-] Hj Hr. eauto.
  - destruct (exec a w) as [w1|] eqn:E; [|discriminate].
    intros Hrun Hj Hr.
    destruct (step_keeps_running a w w1 j job (exec_step _ _ _ E) Ha Hj Hr)
      as (job1 & Hj1 & Hr1 & Hl1).
    destruct (IH w1 job1 Hrun Hj1 Hr1) as (job' & Hj' & Hr' & Hl').
    exists job'. split; [exact Hj'|]. split; [exact Hr'|]. congruence.
Qed.

(** C9: the running flag of a Job is cleared by Stop only.  From a world
    where the flag is set, whatever happens short of a call of Stop on the
    Job (steps of the loop up to its end, cancellation of a parent context,
    replacement of the handle), the flag is still set afterwards, and a
    call of Start on the Job passes no guard, launches nothing and leaves
    the world as it is. *)
Theorem running_flag_cleared_only_by_Stop (acts : list Action)
    (w w' : World) (j : nat) (job : Job.t) :
  jobs w !! j = Some job -> Job.isRunning job = true ->
  Forall (fun a => a <> CallStop j) acts ->
  run acts w = Some w' ->
  exists job',
    jobs w' !! j = Some job' /\ Job.isRunning job' = true /\
    launched w' j = launched w j /\
    Start_guard j w' = Ok None w' /\
    Start j w' = Ok tt w'.
Proof.
  intros Hj Hr Hok Hrun.
  destruct (run_keeps_running acts w w' j job Hok Hrun Hj Hr)
    as (job' & Hj' & Hr' & Hl).
  exists job'. repeat split; auto.
  - apply (Start_guard_refused _ _ _ Hj'). now right.
  - apply (Start_refused _ _ _ Hj'). now right.
Qed.

(** C3 (amended): Start returns with the world as it is when the callback
    is unset or the Job is running.  Otherwise it sets the running flag and
    launches one goroutine of the loop, holding the Done channel of the
    current handle, and changes nothing else; a second call right after
    the first launches nothing, so two calls in a row add one goroutine;
    and as long as Stop is not called on the Job, nothing launches another
    goroutine for it.  (A goroutine launched before a Stop may still be
    active when a Start after that Stop launches the next.) *)
Theorem Start_guarded_by_running_flag (w : World) (j : nat) (job : Job.t) :
  jobs w !! j = Some job ->
  (Job.Fn job = None \/ Job.isRunning job = true -> Start j w = Ok tt w) /\
  (forall fn,
      Job.Fn job = Some fn -> Job.isRunning job = false ->
      exists w' job',
        Start j w = Ok tt w' /\
        Frame.heap w w' j job' /\
        Job.isRunning job' = true /\
        (forall f, f <> Frame.isRunning -> Frame.same f job' job) /\
        tasks w' = tasks w ++ [mkTask j (LoopTop (Job.Ctx job))] /\
        cancelled w' = cancelled w /\ next_token w' = next_token w /\
        clock w' = clock w /\ events w' = events w /\
        launched w' j = S (launched w j) /\
        active_loops w' j = S (active_loops w j) /\
        Start j w' = Ok tt w' /\
        forall acts w'',
          Forall (fun a => a <> CallStop j) acts ->
          run acts w' = Some w'' ->
          launched w'' j = launched w' j).
Proof.
  intros Hj. split; [apply (Start_refused _ _ _ Hj)|].
  intros fn Hf Hr.
  pose proof (put_heap w j job (Job.set_isRunning true job) Hj)
    as Hheap.
  eexists _, _. split; [apply (Start_passed _ _ _ _ Hj Hf Hr)|].
  split; [exact Hheap|]. split; [reflexivity|].
  split; [intros [] ?; cbn; congruence|].
  do 5 (split; [reflexivity|]).
  split.
  { rewrite launched_spawn, decide_True by reflexivity.
    unfold launched. cbn. lia. }
  split.
  { rewrite active_spawn, decide_True by reflexivity.
    unfold active_loops. cbn. lia. }
  destruct Hheap as (Hj' & _).
  split.
  { match goal with
    | |- Start _ ?W = _ => apply (Start_refused W j _ Hj')
    end. now right. }
  intros acts w'' Hok Hrun.
  destruct (run_keeps_running acts _ w'' j _ Hok Hrun Hj' eq_refl)
    as (_ & _ & _ & Hl).
  exact Hl.
Qed.

(** ** One iteration of the loop *)

Lemma armed_when (job : Job.t) (dt : Z) (w : World) :
  time.when (armed job dt w)
  = time.instant (_cron.Next (Job.Schedule job)
                    (time.mkTime (clock w) (Job.Timezone job))).
Proof. unfold armed, time.NewTimer, time.Sub. cbn. lia. Qed.

(** C1 (amended): an iteration of the loop reads, in one read section,
    the timezone (the timer is armed for the run that follows the current
    time in that timezone) and the blocking flag, and then waits without
    the lock.  The Done channel it waits on is the one read once, when
    Start launched the loop: it is not read again.  Whatever is called
    while the goroutine waits (SetBlocking, SetTimezone, Execute,
    WithContext), the armed timer, the dispatch mode and the Done channel
    of this iteration stay as they are; the callback and the context handed
    to it are those the Job has when the timer fires; and the Done channel
    waited on is the one of the Job's current handle or is closed (which
    is what replacing the handle does to it). *)
Theorem iteration_reads (w : World) (i j : nat) (d : context.t)
    (job : Job.t) (dt : Z) :
  reachable w ->
  task_at w i = Some (j, LoopTop d) ->
  jobs w !! j = Some job ->
  0 <= dt ->
  exists w1 timer,
    exec (Arm i dt) w = Some w1 /\
    task_at w1 i = Some (j, Select d timer (Job.Blocking job)) /\
    time.when timer
    = time.instant (_cron.Next (Job.Schedule job)
                      (time.mkTime (clock w) (Job.Timezone job))) /\
    time.active timer = true /\
    jobs w1 = jobs w /\
    forall acts w2,
      Forall (fun a => a <> Fire i /\ a <> Observe i) acts ->
      run acts w1 = Some w2 ->
      task_at w2 i = Some (j, Select d timer (Job.Blocking job)) /\
      exists job2,
        jobs w2 !! j = Some job2 /\
        (d = Job.Ctx job2 \/ done_closed w2 d = true) /\
        forall fn,
          Job.Fn job2 = Some fn ->
          time.expired (clock w2) timer = true ->
          exists w3,
            exec (Fire i) w2 = Some w3 /\
            events w3
            = mkEvent i fn (Job.Ctx job2) (negb (Job.Blocking job))
                :: events w2 /\
            task_at w3 i
            = Some (j, if Job.Blocking job then InCallback d
                       else LoopTop d).
Proof.
  intros Hreach Ht Hj Hdt.
  assert (Harm : step w (Arm i dt)
                   (goto i j (Select d (armed job dt w) (Job.Blocking job))
                      (set_clock (clock w + dt) w)))
    by (eapply step_Arm; eauto).
  apply step_exec in Harm.
  eexists _, _. split; [exact Harm|].
  split; [eapply (goto_self (set_clock _ w)); exact Ht|].
  split; [apply armed_when|]. split; [reflexivity|]. split; [reflexivity|].
  intros acts w2 Hok Hrun.
  assert (Hsel : task_at w2 i
                 = Some (j, Select d (armed job dt w) (Job.Blocking job))).
  { eapply run_keeps_select; eauto.
    eapply (goto_self (set_clock _ w)); exact Ht. }
  split; [exact Hsel|].
  assert (Hreach2 : reachable w2).
  { eapply reachable_run; [|exact Hrun].
    eapply reachable_exec; eauto. }
  destruct (run_keeps_schedule acts _ w2 j job Hrun Hj) as (job2 & Hj2 & _).
  exists job2. split; [exact Hj2|].
  split.
  { pose proof Hsel as Hsel'. apply task_at_Some in Hsel'.
    destruct (reachable_done_held w2 Hreach2 i _ d Hsel' eq_refl)
      as (job2' & Hj2' & Hor).
    cbn in Hj2'. rewrite Hj2 in Hj2'. now injection Hj2' as <-. }
  intros fn Hfn Hexp.
  assert (Hfire : step w2 (Fire i)
            (goto i j (if Job.Blocking job then InCallback d else LoopTop d)
               (add_event
                  (mkEvent i fn (Job.Ctx job2) (negb (Job.Blocking job)))
                  w2)))
    by (eapply step_Fire; eauto).
  apply step_exec in Hfire.
  eexists. split; [exact Hfire|]. split; [reflexivity|].
  eapply (goto_self (add_event _ w2)); exact Hsel.
Qed.

(** ** The end of the loop *)

Lemma select_not_due (w : World) (i j : nat) d timer b (a : Action) :
  task_at w i = Some (j, Select d timer b) ->
  time.expired (clock w) timer = false ->
  actor a = Some i -> a <> Observe i ->
  exec a w = None.
Proof.
  intros Ht Hexp Ha Ho.
  destruct a; cbn in Ha; try discriminate; injection Ha as ->; cbn.
  - now rewrite Ht.
  - unfold loop_arm. now rewrite Ht.
  - unfold loop_fire. now rewrite Ht, Hexp.
  - unfold loop_return. now rewrite Ht.
  - congruence.
Qed.

Lemma returned_is_final (w : World) (i j : nat) timer (a : Action) :
  task_at w i = Some (j, Returned timer) ->
  actor a = Some i ->
  exec a w = None.
Proof.
  intros Ht Ha.
  destruct a; cbn in Ha; try discriminate; injection Ha as ->; cbn.
  - now rewrite Ht.
  - unfold loop_arm. now rewrite Ht.
  - unfold loop_fire. now rewrite Ht.
  - unfold loop_return. now rewrite Ht.
  - unfold loop_done. now rewrite Ht.
Qed.

(** C2 (amended): once the Done channel a goroutine of the loop waits on
    is closed, it stays closed, and at every moment of the wait the
    cancellation case of the select is ready; it is the only step the
    goroutine can take unless the timer is due as well, in which case the
    select may take either case.  Taking the cancellation case stops the
    timer and ends the goroutine: whatever happens afterwards, calls of
    Start and Stop included, it stays ended, takes no step and dispatches
    no callback. *)
Theorem cancellation_ends_the_loop (w : World) (i j : nat)
    (d : context.t) (timer : time.Timer) (b : bool) :
  task_at w i = Some (j, Select d timer b) ->
  done_closed w d = true ->
  forall acts w',
    Forall (fun a => a <> Fire i /\ a <> Observe i) acts ->
    run acts w = Some w' ->
    task_at w' i = Some (j, Select d timer b) /\
    done_closed w' d = true /\
    (time.expired (clock w') timer = false ->
     forall a, actor a = Some i -> a <> Observe i -> exec a w' = None) /\
    exists w1,
      exec (Observe i) w' = Some w1 /\
      task_at w1 i = Some (j, Returned (time.Stop timer)) /\
      time.active (time.Stop timer) = false /\
      jobs w1 = jobs w' /\ events w1 = events w' /\
      forall acts2 w2,
        run acts2 w1 = Some w2 ->
        task_at w2 i = Some (j, Returned (time.Stop timer)) /\
        dispatches w2 i = dispatches w' i /\
        forall a, actor a = Some i -> exec a w2 = None.
Proof.
  intros Ht Hd acts w' Hok Hrun.
  assert (Ht' : task_at w' i = Some (j, Select d timer b))
    by (eapply run_keeps_select; eauto).
  assert (Hd' : done_closed w' d = true)
    by (eapply run_keeps_done; eauto).
  split; [exact Ht'|]. split; [exact Hd'|].
  split; [intros Hexp a; now apply (select_not_due w' i j d timer b)|].
  assert (Hobs : step w' (Observe i) (goto i j (Returned (time.Stop timer)) w'))
    by (eapply step_Observe; eauto).
  apply step_exec in Hobs.
  eexists. split; [exact Hobs|].
  assert (Hret : task_at (goto i j (Returned (time.Stop timer)) w') i
                 = Some (j, Returned (time.Stop timer)))
    by (eapply goto_self; eauto).
  split; [exact Hret|].
  do 3 (split; [reflexivity|]).
  intros acts2 w2 Hrun2.
  destruct (run_keeps_returned acts2 _ w2 i j _ Hrun2 Hret) as [H1 H2].
  split; [exact H1|]. split; [exact H2|].
  intros a. now apply (returned_is_final w2 i j (time.Stop timer)).
Qed.

(** * Further properties of the package *)

(** ** The clock of a Job *)


(** ** Chains of mutators *)

Lemma chain_ok {A B} (m : M A) (k : A -> M B) (w w1 : World) (a : A) :
  m w = Ok a w1 -> bind m k w = k a w1.
Proof. intros H. unfold bind. now rewrite H. Qed.

Lemma put_put (w : World) (j : nat) (x y : Job.t) :
  set_jobs (fun h => <[j:=x]> h) (set_jobs (fun h => <[j:=y]> h) w)
  = set_jobs (fun h => <[j:=x]> h) w.
Proof.
  unfold set_jobs. cbn. f_equal. apply list_insert_insert_eq.
Qed.

Lemma put_lookup (w : World) (j : nat) (job x : Job.t) :
  jobs w !! j = Some job ->
  jobs (set_jobs (fun h => <[j:=x]> h) w) !! j = Some x.
Proof.
  intros H. cbn. apply list_lookup_insert_eq. eapply lookup_lt_Some; eauto.
Qed.

(** X2: in a chain of SetBlocking, SetTimezone and Execute on one Job the
    order of two different mutators does not matter, and of two calls of the
    same mutator the last one wins. *)
Theorem mutators_commute (w : World) (j : nat) (job : Job.t) (b b0 : bool)
    (loc loc0 : time.Location) (fn fn0 : option Callback) :
  jobs w !! j = Some job ->
  (let* r := SetBlocking j b in SetTimezone r loc) w
  = (let* r := SetTimezone j loc in SetBlocking r b) w /\
  (let* r := SetBlocking j b in Execute r fn) w
  = (let* r := Execute j fn in SetBlocking r b) w /\
  (let* r := SetTimezone j loc in Execute r fn) w
  = (let* r := Execute j fn in SetTimezone r loc) w /\
  (let* r := SetBlocking j b0 in SetBlocking r b) w = SetBlocking j b w /\
  (let* r := SetTimezone j loc0 in SetTimezone r loc) w
  = SetTimezone j loc w /\
  (let* r := Execute j fn0 in Execute r fn) w = Execute j fn w.
Proof.
  intros H.
  pose proof (fun x => put_lookup w j job x H) as Hp.
  repeat split.
  - rewrite (chain_ok _ _ _ _ _ (SetBlocking_ok _ _ _ b H)).
    rewrite (chain_ok _ _ _ _ _ (SetTimezone_ok _ _ _ loc H)).
    rewrite (SetTimezone_ok _ _ _ loc (Hp _)).
    rewrite (SetBlocking_ok _ _ _ b (Hp _)).
    f_equal. now rewrite !put_put.
  - rewrite (chain_ok _ _ _ _ _ (SetBlocking_ok _ _ _ b H)).
    rewrite (chain_ok _ _ _ _ _ (Execute_ok _ _ _ fn H)).
    rewrite (Execute_ok _ _ _ fn (Hp _)).
    rewrite (SetBlocking_ok _ _ _ b (Hp _)).
    f_equal. now rewrite !put_put.
  - rewrite (chain_ok _ _ _ _ _ (SetTimezone_ok _ _ _ loc H)).
    rewrite (chain_ok _ _ _ _ _ (Execute_ok _ _ _ fn H)).
    rewrite (Execute_ok _ _ _ fn (Hp _)).
    rewrite (SetTimezone_ok _ _ _ loc (Hp _)).
    f_equal. now rewrite !put_put.
  - rewrite (chain_ok _ _ _ _ _ (SetBlocking_ok _ _ _ b0 H)).
    rewrite (SetBlocking_ok _ _ _ b (Hp _)), (SetBlocking_ok _ _ _ b H).
    f_equal. now rewrite !put_put.
  - rewrite (chain_ok _ _ _ _ _ (SetTimezone_ok _ _ _ loc0 H)).
    rewrite (SetTimezone_ok _ _ _ loc (Hp _)), (SetTimezone_ok _ _ _ loc H).
    f_equal. now rewrite !put_put.
  - rewrite (chain_ok _ _ _ _ _ (Execute_ok _ _ _ fn0 H)).
    rewrite (Execute_ok _ _ _ fn (Hp _)), (Execute_ok _ _ _ fn H).
    f_equal. now rewrite !put_put.
Qed.

(** ** What the loop and the calls leave alone *)



(** ** Stopping *)

(** X5: Stop on a running Job, and WithContext on any Job, close the Done
    channel held by every goroutine of that Job's loop, whenever it was
    launched: each of them has its cancellation case ready from then on. *)
Theorem Stop_closes_every_Done (w : World) (j : nat) (job : Job.t) :
  reachable w ->
  jobs w !! j = Some job ->
  (Job.isRunning job = true ->
   exists w',
     Stop j w = Ok tt w' /\
     forall i t d, tasks w' !! i = Some t -> t_job t = j ->
                   pc_done (t_pc t) = Some d -> done_closed w' d = true) /\
  (forall ctx,
     exists w',
       WithContext j ctx w = Ok j w' /\
       forall i t d, tasks w' !! i = Some t -> t_job t = j ->
                     pc_done (t_pc t) = Some d -> done_closed w' d = true).
Proof.
  intros Hr Hj.
  destruct (inv_jobs w (reachable_Inv w Hr) j job Hj)
    as (p & k & Hc & Hf & _).
  pose proof (reachable_done_held w Hr) as Hh.
  assert (Hall : forall w',
             tasks w' = tasks w ->
             cancelled w' = context.Internal k :: cancelled w \/
             (exists wx, cancelled wx = context.Internal k :: cancelled w /\
                         cancelled w' = cancelled wx) ->
             clock w' = clock w ->
             forall i t d, tasks w' !! i = Some t -> t_job t = j ->
                           pc_done (t_pc t) = Some d ->
                           done_closed w' d = true).
  { intros w' Ht Hcan Hclk i t d Hi Htj Hd. rewrite Ht in Hi.
    assert (Hcs : cancelled w' = context.Internal k :: cancelled w)
      by (destruct Hcan as [?|(wx & ? & ?)]; congruence).
    destruct (Hh i t d Hi Hd) as (job0 & Hj0 & Hor).
    rewrite Htj, Hj in Hj0. injection Hj0 as <-.
    unfold done_closed. rewrite Hcs, Hclk.
    destruct Hor as [->|Hcl].
    - rewrite Hc. apply Done_cancel_own.
    - eapply Done_mono; [| |exact Hcl]; [|reflexivity].
      apply list_subseteq_cons. reflexivity. }
  split.
  - intros Hrun. eexists. split; [apply (Stop_running _ _ _ _ Hj Hrun Hf)|].
    apply Hall; auto.
  - intros ctx. eexists. split; [apply (WithContext_ok _ _ _ ctx _ Hj Hf)|].
    apply Hall; auto.
Qed.

(** X9: Start after Stop, with no new handle in between, launches a
    goroutine that holds the Done channel Stop has closed: the Job is
    running again, with a loop whose cancellation case is ready at its
    first wait. *)
Theorem restart_after_Stop_is_cancelled (w : World) (j : nat) (job : Job.t)
    (fn : Callback) :
  reachable w ->
  jobs w !! j = Some job ->
  Job.isRunning job = true ->
  Job.Fn job = Some fn ->
  exists w',
    run [CallStop j; CallStart j] w = Some w' /\
    tasks w' = tasks w ++ [mkTask j (LoopTop (Job.Ctx job))] /\
    done_closed w' (Job.Ctx job) = true /\
    jobs w' !! j = Some job.
Proof.
  intros Hr Hj Hrun Hfn.
  destruct (inv_jobs w (reachable_Inv w Hr) j job Hj)
    as (p & k & Hc & Hf & _).
  pose proof (Stop_running _ _ _ _ Hj Hrun Hf) as Hstop.
  set (w1 := add_cancelled (context.Internal k)
               (set_jobs (fun h => <[j:=Job.set_isRunning false job]> h) w))
    in *.
  assert (Hj1 : jobs w1 !! j = Some (Job.set_isRunning false job)).
  { cbn. apply list_lookup_insert_eq. eapply lookup_lt_Some; eauto. }
  pose proof (Start_passed w1 j _ fn Hj1 Hfn eq_refl) as Hstart.
  eexists. split.
  { cbn [run exec]. unfold effect. rewrite Hstop. cbn [run exec].
    unfold effect. rewrite Hstart. reflexivity. }
  split; [reflexivity|]. split.
  - unfold done_closed. rewrite Hc. apply Done_cancel_own.
  - cbn. rewrite list_insert_insert_eq.
    rewrite list_lookup_insert_eq by (eapply lookup_lt_Some; eauto).
    f_equal. destruct job. cbn in *. now subst.
Qed.

(** ** Firing *)

Lemma fire_needs_due_timer (w w' : World) (i j : nat) d timer b :
  task_at w i = Some (j, Select d timer b) ->
  exec (Fire i) w = Some w' ->
  time.when timer <= clock w.
Proof.
  intros Ht He. cbn in He. unfold loop_fire in He. rewrite Ht in He.
  destruct (time.expired (clock w) timer) eqn:E; [|discriminate].
  unfold time.expired in E. apply andb_true_iff in E as [_ E].
  now apply Z.leb_le.
Qed.

(** X6: the callback is never dispatched early.  If an iteration arms its
    timer in world [w] and the timer case of its select is taken later,
    whatever happened in between, the clock has reached the run the schedule
    gives after the time of [w] in the timezone the Job had in [w]. *)
Theorem never_fires_early (w w1 w2 w3 : World) (i j : nat) (d : context.t)
    (job : Job.t) (dt : Z) (acts : list Action) :
  task_at w i = Some (j, LoopTop d) ->
  jobs w !! j = Some job ->
  exec (Arm i dt) w = Some w1 ->
  Forall (fun a => a <> Fire i /\ a <> Observe i) acts ->
  run acts w1 = Some w2 ->
  exec (Fire i) w2 = Some w3 ->
  time.instant (_cron.Next (Job.Schedule job)
                  (time.mkTime (clock w) (Job.Timezone job)))
  <= clock w2.
Proof.
  intros Ht Hj Harm Hok Hrun Hfire.
  assert (Hw1 : w1 = goto i j (Select d (armed job dt w) (Job.Blocking job))
                       (set_clock (clock w + dt) w)).
  { cbn in Harm. unfold loop_arm in Harm. rewrite Ht in Harm.
    destruct (0 <=? dt); [|discriminate].
    rewrite (iteration_head_ok _ _ _ _ Hj) in Harm. now injection Harm. }
  assert (Hsel : task_at w2 i
                 = Some (j, Select d (armed job dt w) (Job.Blocking job))).
  { eapply run_keeps_select; eauto. subst w1.
    eapply (goto_self (set_clock _ w)); exact Ht. }
  rewrite <- armed_when with (dt := dt).
  eapply fire_needs_due_timer; eauto.
Qed.

(** A goroutine inside a synchronous callback leaves it by the return of
    the callback only. *)
Lemma step_keeps_callback (a : Action) (w w' : World) (i j : nat) d :
  step w a w' -> a <> Return_ i ->
  task_at w i = Some (j, InCallback d) ->
  task_at w' i = Some (j, InCallback d) /\
  dispatches w' i = dispatches w i.
Proof.
  intros Hs Hn Hx. split.
  - destruct (decide (actor a = Some i)) as [Ha|Ha];
      [|eapply step_keeps_task; eauto].
    destruct Hs; cbn [actor] in Ha; try discriminate;
      injection Ha as ->; congruence.
  - destruct Hs; try reflexivity.
    unfold dispatches. cbn [events goto set_tasks add_event].
    rewrite filter_cons_False; [reflexivity|].
    cbn. intros ->. congruence.
Qed.

(** X7: in blocking mode the loop stalls for the callback: from the
    synchronous call of the callback until its return, whatever else
    happens, that goroutine stays in the call and dispatches nothing. *)
Theorem blocking_callback_stalls_loop (acts : list Action) (w w' : World)
    (i j : nat) (d : context.t) :
  task_at w i = Some (j, InCallback d) ->
  Forall (fun a => a <> Return_ i) acts ->
  run acts w = Some w' ->
  task_at w' i = Some (j, InCallback d) /\
  dispatches w' i = dispatches w i /\
  forall a, actor a = Some i -> a <> Return_ i -> exec a w' = None.
Proof.
  intros Ht Hok. revert w Ht.
  induction Hok as [|a acts Ha _ IH]; intros w Ht; cbn.
  - intros [= <-]. split; [exact Ht|]. split; [reflexivity|].
    intros a Ha Hn.
    destruct a; cbn in Ha; try discriminate; injection Ha as ->; cbn.
    + now rewrite Ht.
    + unfold loop_arm. now rewrite Ht.
    + unfold loop_fire. now rewrite Ht.
    + congruence.
    + unfold loop_done. now rewrite Ht.
  - destruct (exec a w) as [w1|] eqn:E; [|discriminate].
    intros Hrun.
    destruct (step_keeps_callback a w w1 i j d (exec_step _ _ _ E) Ha Ht)
      as [H1 H2].
    destruct (IH w1 H1 Hrun) as (H3 & H4 & H5).
    split; [exact H3|]. split; [congruence|exact H5].
Qed.

(** ** The unlocked read of line 134 *)

(** X11: the Done channel a loop holds is the one of the handle the Job has
    when line 134 runs, not when the guard of Start was passed.  If
    WithContext comes between the two, the loop holds the new handle; if it
    comes after the whole call of Start, the loop holds the old handle,
    which WithContext has closed. *)
Theorem launch_reads_current_handle (w : World) (j : nat) (job : Job.t)
    (fn : Callback) (ctx : context.t) :
  reachable w ->
  jobs w !! j = Some job ->
  Job.Fn job = Some fn ->
  Job.isRunning job = false ->
  context.allocated (next_token w) ctx = true ->
  let i := length (tasks w) in
  let fresh := context.WithCancel_ ctx (context.Internal (next_token w)) in
  (exists w1 job1,
      run [CallStartGuard j; CallWithContext j ctx; StartLaunch i] w
      = Some w1 /\
      task_at w1 i = Some (j, LoopTop fresh) /\
      jobs w1 !! j = Some job1 /\ Job.Ctx job1 = fresh) /\
  (exists w2 job2,
      run [CallStart j; CallWithContext j ctx] w = Some w2 /\
      task_at w2 i = Some (j, LoopTop (Job.Ctx job)) /\
      done_closed w2 (Job.Ctx job) = true /\
      jobs w2 !! j = Some job2 /\ Job.Ctx job2 = fresh).
Proof.
  intros Hr Hj Hfn Hrun Ha i fresh.
  destruct (inv_jobs w (reachable_Inv w Hr) j job Hj)
    as (p & k & Hc & Hf & _).
  assert (Hlt : (j < length (jobs w))%nat) by (eapply lookup_lt_Some; eauto).
  split.
  - pose proof (step_Guard_passed w j job fn Hj Hfn Hrun) as S1.
    apply step_exec in S1.
    set (w1 := set_tasks (fun ts => ts ++ [mkTask j Launching])
                 (put j (Job.set_isRunning true job) w)) in *.
    assert (Hj1 : jobs w1 !! j = Some (Job.set_isRunning true job))
      by (cbn; now apply list_lookup_insert_eq).
    pose proof (step_WithContext w1 j _ ctx _ Hj1 Hf Ha) as S2.
    apply step_exec in S2.
    set (w2 := put j (rehandled ctx (next_token w1)
                        (Job.set_isRunning true job))
                 (bump_token (add_cancelled (context.Internal k) w1))) in *.
    assert (Hj2 : jobs w2 !! j
                  = Some (rehandled ctx (next_token w)
                            (Job.set_isRunning true job))).
    { cbn. rewrite list_insert_insert_eq. now apply list_lookup_insert_eq. }
    assert (Ht2 : task_at w2 i = Some (j, Launching)).
    { unfold task_at. cbn. rewrite lookup_app_r by reflexivity.
      unfold i. now rewrite Nat.sub_diag. }
    pose proof (step_Launch w2 i j _ Ht2 Hj2) as S3.
    apply step_exec in S3.
    eexists _, _. split.
    { cbn [run]. rewrite S1. cbn [run]. rewrite S2. cbn [run]. rewrite S3.
      reflexivity. }
    split; [eapply goto_self; exact Ht2|].
    split; [exact Hj2|reflexivity].
  - pose proof (step_Start_passed w j job fn Hj Hfn Hrun) as S1.
    apply step_exec in S1.
    set (w1 := set_tasks (fun ts => ts ++ [mkTask j (LoopTop (Job.Ctx job))])
                 (put j (Job.set_isRunning true job) w)) in *.
    assert (Hj1 : jobs w1 !! j = Some (Job.set_isRunning true job))
      by (cbn; now apply list_lookup_insert_eq).
    pose proof (step_WithContext w1 j _ ctx _ Hj1 Hf Ha) as S2.
    apply step_exec in S2.
    eexists _, _. split.
    { cbn [run]. rewrite S1. cbn [run]. rewrite S2. reflexivity. }
    split.
    { unfold task_at. cbn. rewrite lookup_app_r by reflexivity.
      unfold i. now rewrite Nat.sub_diag. }
    split.
    { unfold done_closed. rewrite Hc. apply Done_cancel_own. }
    split.
    { cbn. rewrite list_insert_insert_eq. now apply list_lookup_insert_eq. }
    reflexivity.
Qed.

(** ** Goroutines, callbacks and handles along every run *)







(** ** The cancel functions of the Jobs *)

Lemma holds_put (w wx : World) (i j : nat) (x y : Job.t)
    (tok : context.Token) :
  jobs wx = jobs w -> jobs w !! i = Some x ->
  Job.cancelFunc y = Job.cancelFunc x ->
  holds (put i y wx) j tok <-> holds w j tok.
Proof.
  intros Hw Hi Hy. unfold holds. cbn [jobs put set_jobs]. rewrite Hw.
  destruct (decide (i = j)) as [->|Hne].
  - rewrite list_lookup_insert_eq by (eapply lookup_lt_Some; eauto).
    split; intros (job & Hj & Hc).
    + injection Hj as <-. exists x. split; [exact Hi|congruence].
    + exists y. split; [reflexivity|]. rewrite Hi in Hj. injection Hj as <-.
      congruence.
  - now rewrite list_lookup_insert_ne by exact Hne.
Qed.

Lemma private_handles_same (w w' : World) :
  (forall j tok, holds w' j tok <-> holds w j tok) ->
  next_token w' = next_token w ->
  cancelled w ⊆ cancelled w' ->
  private_handles w -> private_handles w'.
Proof.
  intros Hh Hn Hc [H1 H2]. split.
  - intros j k tok Hj Hk. apply Hh in Hj, Hk. eauto.
  - intros n Hlt. rewrite Hn in Hlt.
    destruct (H2 n Hlt) as [Hin|(j & Hj)]; [left; auto|].
    right. exists j. now apply Hh.
Qed.

Lemma holds_bound (w : World) (j : nat) (tok : context.Token) :
  Inv w -> holds w j tok ->
  exists n, tok = context.Internal n /\ (n < next_token w)%nat.
Proof.
  intros HI (job & Hj & Hc).
  destruct (inv_jobs w HI j job Hj) as (p & n & _ & Hf & Hn & _).
  exists n. split; [congruence|exact Hn].
Qed.

Lemma private_handles_step (a : Action) (w w' : World) :
  step w a w' -> Inv w -> private_handles w -> private_handles w'.
Proof.
  intros Hs HI HP.
  assert (Hsub : cancelled w ⊆ cancelled w')
    by (apply (step_grows a w w' Hs)).
  destruct Hs;
    try exact HP;
    try (apply (private_handles_same w); auto; intros; reflexivity);
    try (apply (private_handles_same w); auto; intros;
         apply (holds_put w _ _ _ _ _ _ eq_refl H); reflexivity).
  - (* Schedule *)
    destruct HP as [P1 P2].
    assert (Hold : forall j tok,
               holds (set_jobs
                        (fun h => h ++ [fresh_job s schedule (next_token w)])
                        (bump_token w)) j tok ->
               holds w j tok \/
               (j = length (jobs w) /\
                tok = context.Internal (next_token w))).
    { intros j tok (job & Hj & Hc). cbn in Hj.
      apply lookup_app_Some in Hj as [Hj|[Hge Hj]].
      - left. exists job. auto.
      - apply list_lookup_singleton_Some in Hj as [Hz <-]. right.
        cbn in Hc. split; [lia|congruence]. }
    split.
    + intros j k tok Hj Hk.
      destruct (Hold _ _ Hj) as [Hj0|[-> ->]], (Hold _ _ Hk) as [Hk0|[-> Ek]];
        eauto.
      * subst tok. destruct (holds_bound w j _ HI Hj0) as (n & [= <-] & Hn).
        lia.
      * destruct (holds_bound w k _ HI Hk0) as (n & [= <-] & Hn). lia.
    + intros n Hlt. cbn in Hlt.
      destruct (decide (n = next_token w)) as [->|Hne].
      * right. exists (length (jobs w)).
        exists (fresh_job s schedule (next_token w)). split; [|reflexivity].
        cbn. rewrite lookup_app_r by reflexivity. now rewrite Nat.sub_diag.
      * destruct (P2 n) as [Hin|(j & job & Hj & Hc)]; [lia|left; exact Hin|].
        right. exists j, job. split; [|exact Hc]. cbn.
        now rewrite (lookup_app_l_Some _ _ _ _ Hj).
  - (* WithContext *)
    destruct HP as [P1 P2].
    assert (Hold : forall k tok,
               holds (put j (rehandled ctx (next_token w) job)
                        (bump_token (add_cancelled cancel w))) k tok ->
               (k <> j /\ holds w k tok) \/
               (k = j /\ tok = context.Internal (next_token w))).
    { intros k tok (job' & Hj & Hc). cbn in Hj.
      apply list_lookup_insert_Some in Hj as [(-> & <- & _)|[Hne Hj]].
      - right. cbn in Hc. split; [reflexivity|congruence].
      - left. split; [congruence|]. exists job'. auto. }
    split.
    + intros k1 k2 tok Hk1 Hk2.
      destruct (Hold _ _ Hk1) as [[_ Ha]|[-> ->]],
               (Hold _ _ Hk2) as [[_ Hb]|[-> Eb]]; eauto.
      * subst tok. destruct (holds_bound w k1 _ HI Ha) as (n & [= <-] & Hn).
        lia.
      * destruct (holds_bound w k2 _ HI Hb) as (n & [= <-] & Hn). lia.
    + intros n Hlt. cbn in Hlt.
      destruct (decide (n = next_token w)) as [->|Hne].
      * right. exists j. exists (rehandled ctx (next_token w) job).
        split; [|reflexivity]. cbn.
        apply list_lookup_insert_eq. eapply lookup_lt_Some; eauto.
      * destruct (P2 n) as [Hin|(k & job' & Hj & Hc)]; [lia| |].
        -- left. cbn. apply elem_of_cons. now right.
        -- destruct (decide (k = j)) as [->|Hkj].
           ++ left. cbn. apply elem_of_cons. left. congruence.
           ++ right. exists k, job'. split; [|exact Hc]. cbn.
              now rewrite list_lookup_insert_ne by congruence.
  - (* WithContext on a nil cancel function: no such Job *)
    destruct (inv_jobs w HI _ _ H) as (p & k & _ & Hf & _). congruence.
Qed.

Lemma reachable_private_handles (w : World) :
  reachable w -> private_handles w.
Proof.
  revert w. apply reachable_ind.
  - intros now. split.
    + intros j k tok (job & Hj & _). cbn in Hj. now rewrite lookup_nil in Hj.
    + intros n Hn. cbn in Hn. lia.
  - intros a w0 w' Hr0 HP0 Hs.
    eapply private_handles_step; eauto using reachable_Inv.
Qed.

(** X10: the cancel function of a Job is its own.  In every world a
    program can be in, no two Jobs hold the same cancel function, so Stop
    and WithContext on one Job call no other Job's cancel function; and
    every handle the package has ever made is the current handle of a Job
    or has been cancelled: a replaced handle is never left open. *)
Theorem handles_are_private (w : World) :
  reachable w ->
  (forall j k job_j job_k tok,
      jobs w !! j = Some job_j -> jobs w !! k = Some job_k ->
      Job.cancelFunc job_j = Some tok -> Job.cancelFunc job_k = Some tok ->
      j = k) /\
  (forall n, (n < next_token w)%nat ->
      context.Internal n ∈ cancelled w \/
      exists j job, jobs w !! j = Some job /\
                    Job.cancelFunc job = Some (context.Internal n)).
Proof.
  intros Hr. destruct (reachable_private_handles w Hr) as [H1 H2]. split.
  - intros j k job_j job_k tok Hj Hk Cj Ck.
    apply (H1 j k tok); [exists job_j|exists job_k]; auto.
  - intros n Hn. destruct (H2 n Hn) as [?|(j & job & ? & ?)]; eauto.
Qed.

(** ** The handle Schedule gives *)

Lemma step_keeps_default_handle (a : Action) (w w' : World) (j : nat)
    (job : Job.t) (tok : context.Token) :
  step w a w' -> Inv w -> private_handles w ->
  a <> CallStop j -> (forall ctx, a <> CallWithContext j ctx) ->
  jobs w !! j = Some job ->
  Job.cancelFunc job = Some tok -> tok ∉ cancelled w ->
  exists job', jobs w' !! j = Some job' /\
               Job.Ctx job' = Job.Ctx job /\
               Job.cancelFunc job' = Some tok /\ tok ∉ cancelled w'.
Proof.
  intros Hs HI [P1 _] Hstop Hwith Hj Hc Hout.
  assert (Hput : forall i x y wx,
             jobs wx = jobs w -> jobs w !! i = Some x ->
             (i = j -> Job.Ctx y = Job.Ctx x /\
                       Job.cancelFunc y = Job.cancelFunc x) ->
             exists job', jobs (put i y wx) !! j = Some job' /\
                          Job.Ctx job' = Job.Ctx job /\
                          Job.cancelFunc job' = Some tok).
  { intros i x y wx Hw Hi Hy. cbn [jobs put set_jobs]. rewrite Hw.
    destruct (decide (i = j)) as [->|Hne].
    - rewrite list_lookup_insert_eq by (eapply lookup_lt_Some; eauto).
      rewrite Hi in Hj. injection Hj as ->.
      destruct (Hy eq_refl) as [E1 E2]. exists y. split; [reflexivity|].
      split; congruence.
    - rewrite list_lookup_insert_ne by exact Hne. eauto. }
  assert (Hother : forall k x c,
             jobs w !! k = Some x -> Job.cancelFunc x = Some c -> k <> j ->
             tok ∉ c :: cancelled w).
  { intros k x c Hk Hx Hne Hin. apply elem_of_cons in Hin as [->|Hin]; auto.
    apply Hne. apply (P1 k j c); [exists x|exists job]; auto. }
  destruct Hs;
    try (exists job; repeat split; assumption).
  - exists job. repeat split; auto. cbn.
    now rewrite lookup_app_l by (eapply lookup_lt_Some; eauto).
  - destruct (Hput j0 job0 (Job.set_Blocking b job0) w eq_refl H)
      as (y & ? & ? & ?); [intros; split; reflexivity|].
    exists y. repeat split; assumption.
  - destruct (Hput j0 job0 (Job.set_Timezone loc job0) w eq_refl H)
      as (y & ? & ? & ?); [intros; split; reflexivity|].
    exists y. repeat split; assumption.
  - destruct (Hput j0 job0 (Job.set_Fn fn job0) w eq_refl H)
      as (y & ? & ? & ?); [intros; split; reflexivity|].
    exists y. repeat split; assumption.
  - assert (Hne : j0 <> j) by (intros ->; now apply (Hwith ctx)).
    destruct (Hput j0 job0 (rehandled ctx (next_token w) job0)
                (bump_token (add_cancelled cancel w)) eq_refl H)
      as (y & ? & ? & ?); [intros E; now destruct Hne|].
    exists y. repeat split; try assumption.
    apply (Hother j0 job0 cancel); assumption.
  - destruct (inv_jobs w HI _ _ H) as (p & k & _ & Hf & _). congruence.
  - destruct (Hput j0 job0 (Job.set_isRunning true job0) w eq_refl H)
      as (y & ? & ? & ?); [intros; split; reflexivity|].
    exists y. repeat split; assumption.
  - destruct (Hput j0 job0 (Job.set_isRunning true job0) w eq_refl H)
      as (y & ? & ? & ?); [intros; split; reflexivity|].
    exists y. repeat split; assumption.
  - assert (Hne : j0 <> j) by (intros ->; now apply Hstop).
    destruct (Hput j0 job0 (Job.set_isRunning false job0) w eq_refl H)
      as (y & ? & ? & ?); [intros; split; reflexivity|].
    exists y. repeat split; try assumption.
    apply (Hother j0 job0 cancel); assumption.
  - exists job. repeat split; auto. cbn. intros Hin.
    apply elem_of_cons in Hin as [->|Hin]; auto.
    destruct (holds_bound w j _ HI (ex_intro _ job (conj Hj Hc)))
      as (n0 & [=] & _).
Qed.

(** X13: a Job that keeps the handle Schedule gave it is cancelled by its
    own Stop only.  As long as neither Stop nor WithContext is called on the
    Job, whatever is done to other Jobs, whatever contexts the callers
    cancel and however much time passes, the Done channel of its handle
    stays open. *)
Theorem default_handle_closed_only_by_Stop (acts : list Action)
    (w w' : World) (j : nat) (job : Job.t) (tok : context.Token) :
  reachable w ->
  jobs w !! j = Some job ->
  Job.Ctx job = context.WithCancel_ context.Background tok ->
  done_closed w (Job.Ctx job) = false ->
  Forall (fun a => a <> CallStop j /\ forall ctx, a <> CallWithContext j ctx)
         acts ->
  run acts w = Some w' ->
  exists job', jobs w' !! j = Some job' /\
               Job.Ctx job' = Job.Ctx job /\
               done_closed w' (Job.Ctx job') = false.
Proof.
  intros Hr Hj Hctx Hopen Hok Hrun.
  assert (Hc : Job.cancelFunc job = Some tok).
  { destruct (inv_jobs w (reachable_Inv w Hr) j job Hj)
      as (p & k & Hc & Hf & _). congruence. }
  assert (Hout : tok ∉ cancelled w).
  { intros Hin. unfold done_closed in Hopen. rewrite Hctx in Hopen.
    cbn in Hopen. now rewrite bool_decide_eq_true_2 in Hopen. }
  assert (Hgoal : exists job', jobs w' !! j = Some job' /\
                    Job.Ctx job' = Job.Ctx job /\
                    Job.cancelFunc job' = Some tok /\ tok ∉ cancelled w').
  { clear Hopen. revert w job Hr Hj Hctx Hc Hout Hrun.
    induction Hok as [|a acts [Ha1 Ha2] _ IH]; intros w job Hr Hj Hctx Hc Hout;
      cbn.
    - intros [= <-]. eauto.
    - destruct (exec a w) as [w1|] eqn:E; [|discriminate].
      intros Hrun.
      pose proof (reachable_private_handles w Hr) as HP.
      destruct (step_keeps_default_handle a w w1 j job tok
                  (exec_step _ _ _ E) (reachable_Inv w Hr) HP Ha1 Ha2
                  Hj Hc Hout) as (job1 & Hj1 & Hc1 & Hf1 & Hout1).
      destruct (IH w1 job1 (reachable_exec _ _ _ Hr E) Hj1
                  (eq_trans Hc1 Hctx) Hf1 Hout1 Hrun)
        as (job' & Hj' & Hc' & Hf' & Hout').
      exists job'. repeat split; auto. congruence. }
  destruct Hgoal as (job' & Hj' & Hc' & _ & Hout').
  exists job'. split; [exact Hj'|]. split; [exact Hc'|].
  unfold done_closed. rewrite Hc', Hctx. cbn.
  now rewrite bool_decide_eq_false_2.
Qed.

(** ** A timer armed too late *)

(** X14: the timer of an iteration is due as soon as it is armed exactly
    when the clock, at the second reading of the time, has reached the run
    the schedule gave for the first reading (the duration handed to the
    timer is then zero or negative): the callback can be dispatched at
    once. *)
Theorem timer_due_at_once (w : World) (i j : nat) (d : context.t)
    (job : Job.t) (fn : Callback) (dt : Z) :
  task_at w i = Some (j, LoopTop d) ->
  jobs w !! j = Some job ->
  Job.Fn job = Some fn ->
  0 <= dt ->
  exists w1,
    exec (Arm i dt) w = Some w1 /\
    (is_Some (exec (Fire i) w1) <->
     time.instant (_cron.Next (Job.Schedule job)
                     (time.mkTime (clock w) (Job.Timezone job)))
     <= clock w + dt).
Proof.
  intros Ht Hj Hf Hdt.
  assert (Harm : step w (Arm i dt)
                   (goto i j (Select d (armed job dt w) (Job.Blocking job))
                      (set_clock (clock w + dt) w)))
    by (eapply step_Arm; eauto).
  apply step_exec in Harm. eexists. split; [exact Harm|].
  assert (Hsel : task_at (goto i j (Select d (armed job dt w)
                                      (Job.Blocking job))
                            (set_clock (clock w + dt) w)) i
                 = Some (j, Select d (armed job dt w) (Job.Blocking job)))
    by (eapply (goto_self (set_clock _ w)); exact Ht).
  rewrite <- (armed_when job dt w).
  cbn [exec]. unfold loop_fire. rewrite Hsel.
  cbn [clock goto set_tasks set_clock jobs].
  rewrite Hj, Hf. unfold time.expired.
  change (time.active (armed job dt w)) with true. cbn [andb].
  destruct (time.when (armed job dt w) <=? clock w + dt) eqn:E.
  - apply Z.leb_le in E. split; [auto|eauto].
  - apply Z.leb_gt in E. split; [intros [x [=]]|lia].
Qed.

End Properties.

(** * The model at work *)

Section Concrete.
Local Existing Instance Stars.lib.

Ltac conj := repeat match goal with |- _ /\ _ => split end.

(** Equations between closed terms, by evaluation. *)
Ltac by_running := conj; reflexivity.

(** ** Where the specification and the code part *)

(** C1 as stated fails.  With the first iteration armed while the callback
    is function 1, [Execute] of function 2 during the wait makes that very
    iteration dispatch function 2.  And after [WithContext] during the
    wait, the next iteration still waits on the Done channel of the first
    handle, which is closed, while the new handle is open: the loop can
    end there, with the Job's handle never cancelled. *)
Lemma callback_and_handle_read_late :
  (exists timer,
      task_at Scenario.armed 0
      = Some (0%nat, Select Scenario.first_handle timer false) /\
      Job.Fn (Scenario.job_of Scenario.armed) = Some 1%nat) /\
  (exists w,
      run Scenario.swap_callback Scenario.armed = Some w /\
      map ev_fn (events w) = [2%nat]) /\
  (exists w w' timer,
      run Scenario.swap_handle Scenario.armed = Some w /\
      task_at w 0 = Some (0%nat, Select Scenario.first_handle timer false) /\
      Job.Ctx (Scenario.job_of w)
      = context.WithCancel_ context.Background (context.Internal 1) /\
      done_closed w (Job.Ctx (Scenario.job_of w)) = false /\
      done_closed w Scenario.first_handle = true /\
      exec (Observe 0) w = Some w' /\
      active_loops w' 0 = 0%nat /\
      done_closed w' (Job.Ctx (Scenario.job_of w')) = false).
Proof.
  split; [|split].
  - exists (time.mkTimer 1000000000 true). by_running.
  - exists Scenario.callback_swapped.
    by_running.
  - exists Scenario.handle_swapped, Scenario.handle_swapped_ended.
    exists (time.mkTimer 2000000000 true).
    by_running.
Qed.

(** C2 as stated fails.  The Job is stopped right after Start, so the
    Done channel is closed before the loop's first wait; the timer is due
    at that wait as well, and the select can take the timer case: the
    callback is dispatched and the loop goes round again. *)
Lemma dispatch_after_cancellation :
  exists w w' timer,
    run Scenario.stop_then_arm (initial 999999990) = Some w /\
    task_at w 0 = Some (0%nat, Select Scenario.first_handle timer false) /\
    done_closed w Scenario.first_handle = true /\
    time.expired (clock w) timer = true /\
    exec (Fire 0) w = Some w' /\
    map ev_fn (dispatches w' 0) = [1%nat] /\
    task_at w' 0 = Some (0%nat, LoopTop Scenario.first_handle).
Proof.
  exists Scenario.stopped_armed, Scenario.fired_after_stop.
  exists (time.mkTimer 1000000000 true).
  by_running.
Qed.

(** C3 as stated fails.  While the first goroutine of the loop is inside
    its callback, Stop, WithContext and Start launch a second one, which
    dispatches the callback too: two goroutines of the loop are active for
    the one Job. *)
Lemma two_active_loops :
  exists w,
    run Scenario.overlap (initial 0) = Some w /\
    active_loops w 0 = 2%nat /\
    map ev_task (events w) = [1%nat; 0%nat].
Proof.
  exists Scenario.overlapped.
  by_running.
Qed.


(** ** The theorems at concrete Jobs *)

(** The two worlds the instances below start from can be reached. *)
Lemma reachable_built : reachable Scenario.built.
Proof. exists 0, Scenario.build. by_running. Defined.

Lemma reachable_started : reachable Scenario.started.
Proof. exists 0, (Scenario.build ++ [CallStart 0]). by_running. Defined.

(** The first iteration of a Job started without further ado: it waits
    on the handle of [Schedule] for the next full second. *)
Lemma iteration_reads_witness :
  reachable Scenario.started /\
  task_at Scenario.started 0
  = Some (0%nat, LoopTop Scenario.first_handle) /\
  jobs Scenario.started !! 0%nat = Some Scenario.started_job /\
  0 <= 0 /\
  exists w1 timer,
    exec (Arm 0 0) Scenario.started = Some w1 /\
    task_at w1 0 = Some (0%nat, Select Scenario.first_handle timer false) /\
    time.when timer = 1000000000.
Proof.
  assert (Ht : task_at Scenario.started 0
               = Some (0%nat, LoopTop Scenario.first_handle))
    by by_running.
  assert (Hj : jobs Scenario.started !! 0%nat = Some Scenario.started_job)
    by by_running.
  assert (Hd : 0 <= 0) by lia.
  conj; try assumption; [exact reachable_started|].
  destruct (iteration_reads Scenario.started 0 0 Scenario.first_handle
              Scenario.started_job 0 reachable_started Ht Hj Hd)
    as (w1 & timer & He & Hs & Hw & _).
  exists w1, timer. conj; [exact He | exact Hs | exact Hw].
Defined.

(** A Job stopped while its goroutine waits; SetBlocking and 5 ns later
    the cancellation case is still there to take, and ends the goroutine. *)
Lemma cancellation_ends_the_loop_witness :
  task_at Scenario.stopped_waiting 0
  = Some (0%nat, Select Scenario.first_handle
                   (time.mkTimer 1000000000 true) false) /\
  done_closed Scenario.stopped_waiting Scenario.first_handle = true /\
  Forall (fun a => a <> Fire 0 /\ a <> Observe 0)
    Scenario.meanwhile /\
  run Scenario.meanwhile Scenario.stopped_waiting
  = Some Scenario.still_waiting /\
  exists w1,
    exec (Observe 0)
      Scenario.still_waiting = Some w1 /\
    task_at w1 0
    = Some (0%nat, Returned (time.mkTimer 1000000000 false)).
Proof.
  assert (Ht : task_at Scenario.stopped_waiting 0
               = Some (0%nat, Select Scenario.first_handle
                                (time.mkTimer 1000000000 true) false))
    by by_running.
  assert (Hd : done_closed Scenario.stopped_waiting Scenario.first_handle
               = true) by by_running.
  assert (Hok : Forall (fun a => a <> Fire 0 /\ a <> Observe 0)
                  Scenario.meanwhile)
    by (repeat constructor; discriminate).
  assert (Hrun : run Scenario.meanwhile
                   Scenario.stopped_waiting
                 = Some Scenario.still_waiting) by by_running.
  conj; try assumption.
  destruct (cancellation_ends_the_loop Scenario.stopped_waiting 0 0
              Scenario.first_handle (time.mkTimer 1000000000 true) false
              Ht Hd _ _ Hok Hrun)
    as (_ & _ & _ & w1 & He & Hr & _).
  exists w1. split; [exact He | exact Hr].
Defined.

(** The first Start of a Job with a callback launches one goroutine, the
    second none. *)
Lemma Start_guarded_by_running_flag_witness :
  jobs Scenario.built !! 0%nat = Some Scenario.built_job /\
  Job.Fn Scenario.built_job = Some 1%nat /\
  Job.isRunning Scenario.built_job = false /\
  exists w',
    Start 0 Scenario.built = Ok tt w' /\
    launched w' 0 = S (launched Scenario.built 0) /\
    Start 0 w' = Ok tt w'.
Proof.
  assert (Hj : jobs Scenario.built !! 0%nat = Some Scenario.built_job)
    by by_running.
  assert (Hf : Job.Fn Scenario.built_job = Some 1%nat) by reflexivity.
  assert (Hr : Job.isRunning Scenario.built_job = false) by reflexivity.
  conj; try assumption.
  destruct (Start_guarded_by_running_flag Scenario.built 0
              Scenario.built_job Hj) as [_ Hpass].
  destruct (Hpass 1%nat Hf Hr)
    as (w' & job' & Hs & _ & _ & _ & _ & _ & _ & _ & _ & Hl & _ & Hs2 & _).
  exists w'. conj; [exact Hs | exact Hl | exact Hs2].
Defined.

(** Stop on a started Job closes the Done channel of its handle. *)
Lemma Stop_cancels_iff_running_witness :
  reachable Scenario.started /\
  jobs Scenario.started !! 0%nat = Some Scenario.started_job /\
  exists w',
    Stop 0 Scenario.started = Ok tt w' /\
    done_closed w' Scenario.first_handle = true.
Proof.
  assert (Hj : jobs Scenario.started !! 0%nat = Some Scenario.started_job)
    by by_running.
  conj; [exact reachable_started | exact Hj |].
  destruct (Stop_cancels_iff_running Scenario.started 0
              Scenario.started_job reachable_started Hj)
    as (w' & job' & cancel & Hs & _ & _ & _ & _ & _ & Hd & _).
  exists w'. split; [exact Hs | exact Hd].
Defined.

(** WithContext with a context of the caller closes the Done channel of
    the handle [Schedule] had made. *)
Lemma WithContext_derives_from_parent_witness :
  reachable Scenario.built /\
  jobs Scenario.built !! 0%nat = Some Scenario.built_job /\
  context.allocated (next_token Scenario.built) Scenario.parent = true /\
  exists w' job',
    WithContext 0 Scenario.parent Scenario.built = Ok 0%nat w' /\
    jobs w' !! 0%nat = Some job' /\
    done_closed w' Scenario.first_handle = true.
Proof.
  assert (Hj : jobs Scenario.built !! 0%nat = Some Scenario.built_job)
    by by_running.
  assert (Ha : context.allocated (next_token Scenario.built)
                 Scenario.parent = true) by reflexivity.
  conj; [exact reachable_built | exact Hj | exact Ha |].
  destruct (WithContext_derives_from_parent Scenario.built 0
              Scenario.built_job Scenario.parent reachable_built Hj Ha)
    as (w' & job' & old & cancel & Hw & (Hh & _) & _ & _ & Hd & _).
  exists w', job'. conj; [exact Hw | exact Hh | exact Hd].
Defined.


(** The Job of the every-second expression: not blocking, in UTC. *)
Lemma Schedule_defaults_witness :
  reachable (initial 0) /\
  _cron.Parse (parser_for Scenario.every_second) Scenario.every_second
  = inl 1000000000 /\
  exists w' job,
    Schedule Scenario.every_second (initial 0) = Ok 0%nat w' /\
    jobs w' !! 0%nat = Some job /\
    Job.Blocking job = false /\ Job.Timezone job = time.UTC.
Proof.
  assert (Hr : reachable (initial 0)) by (exists 0, []; reflexivity).
  assert (Hp : _cron.Parse (parser_for Scenario.every_second)
                 Scenario.every_second = inl 1000000000) by by_running.
  conj; [exact Hr | exact Hp |].
  destruct (Schedule_defaults (initial 0) Scenario.every_second
              (1000000000%Z : @_cron.Schedule Stars.lib) Hr Hp)
    as (w' & job & cancel & Hs & Hj & _ & _ & _ & Hb & Hz & _).
  exists w', job. conj; [exact Hs | exact Hj | exact Hb | exact Hz].
Defined.


(** A loop ended by the cancellation of the caller's context: no
    goroutine of the loop is left, the flag is set, and Start does
    nothing. *)
Lemma running_flag_cleared_only_by_Stop_witness :
  jobs Scenario.started_under_parent !! 0%nat
  = Some Scenario.job_under_parent /\
  Job.isRunning Scenario.job_under_parent = true /\
  Forall (fun a => a <> CallStop 0) Scenario.parent_cancelled /\
  run Scenario.parent_cancelled Scenario.started_under_parent
  = Some Scenario.parent_gone /\
  active_loops
    Scenario.parent_gone
    0 = 0%nat /\
  Start 0
    Scenario.parent_gone
  = Ok tt
      Scenario.parent_gone.
Proof.
  assert (Hj : jobs Scenario.started_under_parent !! 0%nat
               = Some Scenario.job_under_parent) by by_running.
  assert (Hr : Job.isRunning Scenario.job_under_parent = true)
    by reflexivity.
  assert (Hok : Forall (fun a => a <> CallStop 0)
                  Scenario.parent_cancelled)
    by (repeat constructor; discriminate).
  assert (Hrun : run Scenario.parent_cancelled Scenario.started_under_parent
                 = Some Scenario.parent_gone) by by_running.
  conj; try assumption; [by_running|].
  destruct (running_flag_cleared_only_by_Stop Scenario.parent_cancelled
              Scenario.started_under_parent _ 0 Scenario.job_under_parent
              Hj Hr Hok Hrun)
    as (job' & _ & _ & _ & _ & Hs).
  exact Hs.
Defined.

(** The three mutators on a Job just built return that Job. *)
Lemma mutators_return_receiver_witness :
  jobs Scenario.built !! 0%nat = Some Scenario.built_job /\
  (exists w', SetBlocking 0 true Scenario.built = Ok 0%nat w') /\
  (exists w', SetTimezone 0 time.Local Scenario.built = Ok 0%nat w') /\
  (exists w', Execute 0 (Some 2%nat) Scenario.built = Ok 0%nat w').
Proof.
  assert (Hj : jobs Scenario.built !! 0%nat = Some Scenario.built_job)
    by by_running.
  split; [exact Hj|].
  destruct (mutators_return_receiver Scenario.built 0 Scenario.built_job Hj)
    as (Hb & Hz & He).
  conj.
  - destruct (Hb true) as (w' & _ & H & _). exists w'. exact H.
  - destruct (Hz time.Local) as (w' & _ & H & _). exists w'. exact H.
  - destruct (He (Some 2%nat)) as (w' & _ & H & _). exists w'. exact H.
Defined.

(** ** The further properties at concrete Jobs *)

Lemma reachable_armed : reachable Scenario.armed.
Proof.
  exists 0, (Scenario.build ++ [CallStart 0; Arm 0 0]). by_running.
Defined.

Lemma reachable_overlapped : reachable Scenario.overlapped.
Proof. exists 0, Scenario.overlap. by_running. Defined.


(** Blocking then timezone, or timezone then blocking, on the Job just
    built. *)
Lemma mutators_commute_witness :
  jobs Scenario.built !! 0%nat = Some Scenario.built_job /\
  (let* r := SetBlocking 0 true in SetTimezone r Scenario.pst) Scenario.built
  = (let* r := SetTimezone 0 Scenario.pst in SetBlocking r true)
      Scenario.built.
Proof.
  assert (Hj : jobs Scenario.built !! 0%nat = Some Scenario.built_job)
    by by_running.
  split; [exact Hj|].
  exact (proj1 (mutators_commute Scenario.built 0 Scenario.built_job
                  true false Scenario.pst time.UTC None None Hj)).
Defined.



(** Stop on the Job whose first iteration is armed. *)
Lemma Stop_closes_every_Done_witness :
  reachable Scenario.armed /\
  jobs Scenario.armed !! 0%nat = Some Scenario.started_job /\
  Job.isRunning Scenario.started_job = true /\
  exists w', Stop 0 Scenario.armed = Ok tt w'.
Proof.
  assert (Hj : jobs Scenario.armed !! 0%nat = Some Scenario.started_job)
    by by_running.
  assert (Hr : Job.isRunning Scenario.started_job = true) by reflexivity.
  conj; [exact reachable_armed | exact Hj | exact Hr |].
  destruct (Stop_closes_every_Done Scenario.armed 0 Scenario.started_job
              reachable_armed Hj) as [Hs _].
  destruct (Hs Hr) as (w' & Hw & _). exists w'. exact Hw.
Defined.

(** The first fire of the every-second Job comes at the full second. *)
Lemma never_fires_early_witness :
  task_at Scenario.started 0 = Some (0%nat, LoopTop Scenario.first_handle) /\
  jobs Scenario.started !! 0%nat = Some Scenario.started_job /\
  exec (Arm 0 0) Scenario.started = Some Scenario.armed /\
  Forall (fun a => a <> Fire 0 /\ a <> Observe 0) [Tick Scenario.second] /\
  run [Tick Scenario.second] Scenario.armed = Some Scenario.due /\
  exec (Fire 0) Scenario.due = Some Scenario.fired /\
  1000000000 <= clock Scenario.due.
Proof.
  assert (Ht : task_at Scenario.started 0
               = Some (0%nat, LoopTop Scenario.first_handle)) by by_running.
  assert (Hj : jobs Scenario.started !! 0%nat = Some Scenario.started_job)
    by by_running.
  assert (Ha : exec (Arm 0 0) Scenario.started = Some Scenario.armed)
    by by_running.
  assert (Hok : Forall (fun a => a <> Fire 0 /\ a <> Observe 0)
                  [Tick Scenario.second])
    by (repeat constructor; discriminate).
  assert (Hrun : run [Tick Scenario.second] Scenario.armed
                 = Some Scenario.due) by by_running.
  assert (Hf : exec (Fire 0) Scenario.due = Some Scenario.fired)
    by by_running.
  conj; [exact Ht | exact Hj | exact Ha | exact Hok | exact Hrun | exact Hf |].
  exact (never_fires_early _ _ _ _ _ _ _ _ _ _ Ht Hj Ha Hok Hrun Hf).
Defined.

(** A blocking Job stopped while its callback runs. *)
Lemma blocking_callback_stalls_loop_witness :
  task_at Scenario.in_callback 0
  = Some (0%nat, InCallback Scenario.first_handle) /\
  Forall (fun a => a <> Return_ 0) Scenario.during_callback /\
  run Scenario.during_callback Scenario.in_callback
  = Some Scenario.after_callback_calls /\
  task_at Scenario.after_callback_calls 0
  = Some (0%nat, InCallback Scenario.first_handle).
Proof.
  assert (Ht : task_at Scenario.in_callback 0
               = Some (0%nat, InCallback Scenario.first_handle))
    by by_running.
  assert (Hok : Forall (fun a => a <> Return_ 0) Scenario.during_callback)
    by (repeat constructor; discriminate).
  assert (Hrun : run Scenario.during_callback Scenario.in_callback
                 = Some Scenario.after_callback_calls) by by_running.
  conj; [exact Ht | exact Hok | exact Hrun |].
  exact (proj1 (blocking_callback_stalls_loop _ _ _ _ _ _ Ht Hok Hrun)).
Defined.


(** Stop and Start again on the started Job. *)
Lemma restart_after_Stop_is_cancelled_witness :
  reachable Scenario.started /\
  jobs Scenario.started !! 0%nat = Some Scenario.started_job /\
  Job.isRunning Scenario.started_job = true /\
  Job.Fn Scenario.started_job = Some 1%nat /\
  exists w',
    run [CallStop 0; CallStart 0] Scenario.started = Some w' /\
    done_closed w' Scenario.first_handle = true.
Proof.
  assert (Hj : jobs Scenario.started !! 0%nat = Some Scenario.started_job)
    by by_running.
  assert (Hr : Job.isRunning Scenario.started_job = true) by reflexivity.
  assert (Hf : Job.Fn Scenario.started_job = Some 1%nat) by reflexivity.
  conj; [exact reachable_started | exact Hj | exact Hr | exact Hf |].
  destruct (restart_after_Stop_is_cancelled Scenario.started 0
              Scenario.started_job 1%nat reachable_started Hj Hr Hf)
    as (w' & Hrun & _ & Hd & _).
  exists w'. split; [exact Hrun | exact Hd].
Defined.

(** The Jobs of the overlapping run hold different cancel functions. *)
Lemma handles_are_private_witness :
  reachable Scenario.overlapped /\
  forall n, (n < next_token Scenario.overlapped)%nat ->
    context.Internal n ∈ cancelled Scenario.overlapped \/
    exists j job, jobs Scenario.overlapped !! j = Some job /\
                  Job.cancelFunc job = Some (context.Internal n).
Proof.
  split; [exact reachable_overlapped|].
  exact (proj2 (handles_are_private Scenario.overlapped
                  reachable_overlapped)).
Defined.

(** WithContext with the caller's context, between the guard and the
    launch of Start, on the Job just built. *)
Lemma launch_reads_current_handle_witness :
  reachable Scenario.built /\
  jobs Scenario.built !! 0%nat = Some Scenario.built_job /\
  Job.Fn Scenario.built_job = Some 1%nat /\
  Job.isRunning Scenario.built_job = false /\
  context.allocated (next_token Scenario.built) Scenario.parent = true /\
  exists w1,
    run [CallStartGuard 0; CallWithContext 0 Scenario.parent; StartLaunch 0]
      Scenario.built = Some w1 /\
    task_at w1 0
    = Some (0%nat, LoopTop (context.WithCancel_ Scenario.parent
                              (context.Internal 1))).
Proof.
  assert (Hj : jobs Scenario.built !! 0%nat = Some Scenario.built_job)
    by by_running.
  assert (Hf : Job.Fn Scenario.built_job = Some 1%nat) by reflexivity.
  assert (Hr : Job.isRunning Scenario.built_job = false) by reflexivity.
  assert (Ha : context.allocated (next_token Scenario.built)
                 Scenario.parent = true) by reflexivity.
  conj; [exact reachable_built | exact Hj | exact Hf | exact Hr | exact Ha |].
  destruct (launch_reads_current_handle Scenario.built 0 Scenario.built_job
              1%nat Scenario.parent reachable_built Hj Hf Hr Ha)
    as [(w1 & job1 & Hrun & Ht & _) _].
  exists w1. split; [exact Hrun | exact Ht].
Defined.


(** The first Job runs on while a second Job is built, given a context and
    stopped, and the caller cancels that context. *)
Lemma default_handle_closed_only_by_Stop_witness :
  reachable Scenario.started /\
  jobs Scenario.started !! 0%nat = Some Scenario.started_job /\
  Job.Ctx Scenario.started_job
  = context.WithCancel_ context.Background (context.Internal 0) /\
  done_closed Scenario.started (Job.Ctx Scenario.started_job) = false /\
  Forall (fun a => a <> CallStop 0 /\ forall ctx, a <> CallWithContext 0 ctx)
    Scenario.elsewhere /\
  run Scenario.elsewhere Scenario.started = Some Scenario.after_elsewhere /\
  exists job',
    jobs Scenario.after_elsewhere !! 0%nat = Some job' /\
    done_closed Scenario.after_elsewhere (Job.Ctx job') = false.
Proof.
  assert (Hj : jobs Scenario.started !! 0%nat = Some Scenario.started_job)
    by by_running.
  assert (Hc : Job.Ctx Scenario.started_job
               = context.WithCancel_ context.Background (context.Internal 0))
    by reflexivity.
  assert (Ho : done_closed Scenario.started (Job.Ctx Scenario.started_job)
               = false) by by_running.
  assert (Hok : Forall (fun a => a <> CallStop 0 /\
                                 forall ctx, a <> CallWithContext 0 ctx)
                  Scenario.elsewhere)
    by (repeat constructor; intros; discriminate).
  assert (Hrun : run Scenario.elsewhere Scenario.started
                 = Some Scenario.after_elsewhere) by by_running.
  conj; [exact reachable_started | exact Hj | exact Hc | exact Ho | exact Hok
         | exact Hrun |].
  destruct (default_handle_closed_only_by_Stop _ _ _ 0 _ _ reachable_started
              Hj Hc Ho Hok Hrun) as (job' & Hj' & _ & Hd).
  exists job'. split; [exact Hj' | exact Hd].
Defined.

(** Armed at time 0 without delay, the every-second timer is not due at
    once. *)
Lemma timer_due_at_once_witness :
  task_at Scenario.started 0 = Some (0%nat, LoopTop Scenario.first_handle) /\
  jobs Scenario.started !! 0%nat = Some Scenario.started_job /\
  Job.Fn Scenario.started_job = Some 1%nat /\
  0 <= 0 /\
  exists w1,
    exec (Arm 0 0) Scenario.started = Some w1 /\
    (is_Some (exec (Fire 0) w1) <-> 1000000000 <= 0).
Proof.
  assert (Ht : task_at Scenario.started 0
               = Some (0%nat, LoopTop Scenario.first_handle)) by by_running.
  assert (Hj : jobs Scenario.started !! 0%nat = Some Scenario.started_job)
    by by_running.
  assert (Hf : Job.Fn Scenario.started_job = Some 1%nat) by reflexivity.
  assert (Hd : 0 <= 0) by lia.
  conj; [exact Ht | exact Hj | exact Hf | exact Hd |].
  exact (timer_due_at_once Scenario.started 0 0 Scenario.first_handle
           Scenario.started_job 1%nat 0 Ht Hj Hf Hd).
Defined.

End Concrete.
